(** * Dyck paths and their acyclic orientations

    A shallow embedding of [dyckpath.py] and [acyclic.py]: the Dyck path
    validators, the path enumerator, the boxes under a path (with its
    memoisation cache), and the validator and enumerator of acyclic
    orientations, followed by the properties proved about them. *)

From Equations Require Import Equations.
From Stdlib Require Import Ascii.
From stdpp Require Import gmap list sorting strings.

Local Open Scope Z_scope.
#[local] Set Warnings "-clear-no-such-hyp".

(** ** Python values and exceptions *)

(** The exceptions the modelled code can raise. *)
Inductive exn := IndexError | ValueError | TypeError.

(** The outcome of evaluating a Python expression. *)
Inductive result (A : Type) : Type :=
  | Ok (a : A)
  | Raise (e : exn).
Arguments Ok {A} a.
Arguments Raise {A} e.

#[global] Instance result_ret : MRet result := λ A a, Ok a.
#[global] Instance result_bind : MBind result := λ A B f m,
  match m with
  | Ok a => f a
  | Raise e => Raise e
  end.

(** The Python values the validators are applied to.  The members of a
    frozenset or set are pairs of integers; [VOther] stands for any other
    object ([None], a string, a float, ...). *)
#[local] Set Warnings "-register-all".
Inductive pyval :=
  | VInt (n : Z)
  | VTuple (items : list pyval)
  | VList (items : list pyval)
  | VFrozenset (s : gset (Z * Z))
  | VSet (s : gset (Z * Z))
  | VOther.

(** [all(isinstance(entry, int) for entry in items)], with the integers
    when it holds. *)
Definition ints_of (items : list pyval) : option (list Z) :=
  mapM (λ v, match v with VInt n => Some n | _ => None end) items.

(** The tuple and the list holding the integers [p]. *)
Definition tuple_of (p : list Z) : pyval := VTuple (VInt <$> p).
Definition list_of (p : list Z) : pyval := VList (VInt <$> p).

(** [len(l)] *)
Definition len {A} (l : list A) : Z := Z.of_nat (length l).

(** [range(a, b)] *)
Definition range (a b : Z) : list Z := seqZ a (b - a).

(** [l[i]]: negative indices count from the end, anything outside
    [-len(l) .. len(l)-1] raises [IndexError]. *)
Definition py_slot {A} (l : list A) (i : Z) : result nat :=
  let k := if i <? 0 then i + len l else i in
  if (0 <=? k) && (k <? len l) then Ok (Z.to_nat k) else Raise IndexError.

Definition py_index {A} (l : list A) (i : Z) : result A :=
  k ← py_slot l i;
  match l !! k with
  | Some x => Ok x
  | None => Raise IndexError
  end.

(** [l[i] = x] *)
Definition py_setitem {A} (l : list A) (i : Z) (x : A) : result (list A) :=
  k ← py_slot l i;
  Ok (<[k := x]> l).

(** [l.index(x)]: position of the first occurrence, [ValueError] when
    there is none. *)
Fixpoint py_find (x : Z) (l : list Z) : result Z :=
  match l with
  | [] => Raise ValueError
  | y :: ys => if y =? x then Ok 0 else i ← py_find x ys; Ok (i + 1)
  end.

(** [all(f(x) for x in l)]: stops at the first false, an exception raised
    before that propagates. *)
Fixpoint py_all {A} (f : A → result bool) (l : list A) : result bool :=
  match l with
  | [] => Ok true
  | x :: xs => b ← f x; if b : bool then py_all f xs else Ok false
  end.

(** ** dyckpath.py *)

(** [is_dyck_path] *)
Definition is_dyck_path (path : pyval) : result bool :=
  match path with
  | VTuple entries =>
    match ints_of entries with
    | None => Ok false
    | Some items =>
      if negb (forallb (λ entry, 0 <=? entry) items) then Ok false else
      steps ← py_all (λ i, x ← py_index items i;
                          y ← py_index items (i + 1);
                          Ok (x <? y + 2))
                     (range 0 (len items - 1));
      if negb steps then Ok false else
      if len items =? 0 then Ok true else
      last ← py_index items (-1);
      Ok (last =? 0)
    end
  | _ => Ok false
  end.

(** [is_primitive], on the items of a tuple or list of integers. *)
Definition is_primitive (path : list Z) : result bool :=
  if len path =? 0 then Ok true else
  first_zero ← py_find 0 path;
  Ok (first_zero =? len path - 1).

(** The generator body for one tail: [(head,) + tail] for every
    [head in range(primitive, tail[0]+2)]. *)
Definition extend_tail (primitive : bool) (tail : list Z) : result (list (list Z)) :=
  t0 ← py_index tail 0;
  Ok (map (λ head, head :: tail) (range (if primitive then 1 else 0) (t0 + 2))).

(** Running the body over every tail, in order. *)
Fixpoint extend_tails (primitive : bool) (tails : list (list Z)) : result (list (list Z)) :=
  match tails with
  | [] => Ok []
  | tail :: rest =>
      here ← extend_tail primitive tail;
      later ← extend_tails primitive rest;
      Ok (here ++ later)
  end.

(** [all_dyck_paths]: the tuples the generator yields, in order. *)
Equations? all_dyck_paths (n : Z) (primitive : bool) : result (list (list Z))
  by wf (Z.to_nat n) lt :=
all_dyck_paths n primitive with decide (n = 0) := {
  | left _ => Ok [[]]
  | right _ with decide (n = 1) := {
    | left _ => Ok [[0]]
    | right _ with decide (2 ≤ n) := {
      | left _ => tails ← all_dyck_paths (n - 1) primitive;
                  extend_tails primitive tails
      | right _ => Ok [] } } }.
Proof. lia. Qed.

(** [enumerate(l)] *)
Definition enumerate {A} (l : list A) : list (Z * A) :=
  imap (λ i x, (Z.of_nat i, x)) l.

(** [_boxes_under_path], on the items of the tuple [path]. *)
Definition _boxes_under_path (path : list Z) : gset (Z * Z) :=
  list_to_set
    (flat_map (λ '(i, k), map (λ j, (i, j)) (range (i + 1) (i + 1 + k)))
              (enumerate path)).

(** *** The memoisation cache

    [_cache] is a module-level dictionary from tuples to box sets.  The
    functions that consult it take the cache and give it back. *)
Definition memo (A : Type) : Type :=
  gmap (list Z) (gset (Z * Z)) → result A * gmap (list Z) (gset (Z * Z)).

#[global] Instance memo_ret : MRet memo := λ A a _cache, (Ok a, _cache).
#[global] Instance memo_bind : MBind memo := λ A B f m _cache,
  match m _cache with
  | (Ok a, _cache') => f a _cache'
  | (Raise e, _cache') => (Raise e, _cache')
  end.

(** A computation that does not touch the cache. *)
Definition lift {A} (r : result A) : memo A := λ _cache, (r, _cache).

(** [boxes_under_path], the memoised version. *)
Definition boxes_under_path (path : list Z) : memo (gset (Z * Z)) := λ _cache,
  match _cache !! path with
  | Some cached => (Ok cached, _cache)
  | None =>
      let result := _boxes_under_path path in
      (Ok result, <[path := result]> _cache)
  end.

(** ** Iteration *)

(** [for x in l: s = body(s, x)]: a loop threading the variables [s] it
    assigns, in either monad. *)
Fixpoint py_for {M : Type → Type} `{!MRet M, !MBind M} {A S : Type}
    (body : S → A → M S) (s : S) (l : list A) : M S :=
  match l with
  | [] => mret s
  | x :: xs => s' ← body s x; py_for body s' xs
  end.

(** [itertools.combinations(l, 2)] and [itertools.combinations(l, 3)], in
    the lexicographic order of positions. *)
Fixpoint combinations2 {A} (l : list A) : list (A * A) :=
  match l with
  | [] => []
  | x :: xs => map (λ y, (x, y)) xs ++ combinations2 xs
  end.

Fixpoint combinations3 {A} (l : list A) : list (A * A * A) :=
  match l with
  | [] => []
  | x :: xs => map (λ '(y, z), (x, y, z)) (combinations2 xs) ++ combinations3 xs
  end.

(** Every way of taking one element out of [l], with the rest in order. *)
Fixpoint picks {A} (l : list A) : list (A * list A) :=
  match l with
  | [] => []
  | x :: xs => (x, xs) :: map (λ '(y, ys), (y, x :: ys)) (picks xs)
  end.

(** [itertools.permutations(l)], in the lexicographic order of positions;
    [r] counts the elements still to place. *)
Fixpoint permutations_from {A} (r : nat) (l : list A) : list (list A) :=
  match r with
  | O => [[]]
  | S r' => flat_map (λ '(x, rest), map (cons x) (permutations_from r' rest)) (picks l)
  end.

Definition permutations {A} (l : list A) : list (list A) :=
  permutations_from (length l) l.

(** ** acyclic.py *)

(** An orientation [(n, ascents, descents)] with its fields of the
    expected types. *)
Definition orientation : Type := Z * gset (Z * Z) * gset (Z * Z).

Definition orientation_val (ao : orientation) : pyval :=
  let '(n, ascents, descents) := ao in
  VTuple [VInt n; VFrozenset ascents; VFrozenset descents].

(** The inner loop of [all_orientations]: the boxes sorted into ascents
    and descents by [ordering]. *)
Definition classify (ordering : list Z) (boxes : list (Z * Z))
    : result (gset (Z * Z) * gset (Z * Z)) :=
  py_for (λ '(ascents, descents) '(i, j),
            oi ← py_index ordering i;
            oj ← py_index ordering j;
            if oi <? oj then Ok ({[ (i, j) ]} ∪ ascents, descents)
            else Ok (ascents, {[ (i, j) ]} ∪ descents))
         (∅, ∅) boxes.

(** [all_orientations], on the items of the tuple [path]. *)
Definition all_orientations (path : list Z) : memo (gset orientation) :=
  let n := len path in
  py_for (λ (result : gset orientation) ordering,
            boxes ← boxes_under_path path;
            '(ascents, descents) ← lift (classify ordering (elements boxes));
            mret ({[ (n, ascents, descents) ]} ∪ result))
         ∅ (permutations (range 0 n)).

(** [for (i, j) in boxes: path[i] += 1] *)
Definition count_rows (boxes : gset (Z * Z)) (path : list Z) : result (list Z) :=
  py_for (λ path '(i, j), x ← py_index path i; py_setitem path i (x + 1))
         path (elements boxes).

(** The [try] block of [is_orientation], run on [path = [0]*n]: the path
    under the boxes.  The list is built whatever [n] is; [zeros] below has
    the limit of the interpreter. *)
Definition underlying_path (n : Z) (ascents descents : gset (Z * Z)) : result (list Z) :=
  path ← count_rows ascents (replicate (Z.to_nat n) 0);
  count_rows descents path.

(** The two tests made on a triple [i < j < k]. *)
Definition is_3_cycle (ascents descents : gset (Z * Z)) (t : Z * Z * Z) : bool :=
  let '(i, j, k) := t in
  bool_decide ((i, j) ∈ ascents) && bool_decide ((j, k) ∈ ascents)
    && bool_decide ((i, k) ∈ descents)
  || bool_decide ((i, j) ∈ descents) && bool_decide ((j, k) ∈ descents)
    && bool_decide ((i, k) ∈ ascents).

(** The last loop of [is_orientation]: false at the first 3-cycle. *)
Fixpoint no_3_cycle (ascents descents : gset (Z * Z)) (triples : list (Z * Z * Z)) : bool :=
  match triples with
  | [] => true
  | t :: rest =>
      if is_3_cycle ascents descents t then false
      else no_3_cycle ascents descents rest
  end.

(** [is_orientation], where every integer is an [int] and a list of any
    length can be built; [is_orientation_sized] below has the limits of the
    interpreter. *)
Definition is_orientation (ao : pyval) : memo bool :=
  match ao with
  | VTuple [VInt n; VFrozenset ascents; VFrozenset descents] =>
    match underlying_path n ascents descents with
    | Raise (ValueError | TypeError | IndexError) => mret false
    | Ok path =>
      valid ← lift (is_dyck_path (tuple_of path));
      if negb valid then mret false else
      if negb (bool_decide (ascents ## descents)) then mret false else
      boxes ← boxes_under_path path;
      if negb (bool_decide (ascents ∪ descents = boxes)) then mret false else
      mret (no_3_cycle ascents descents (combinations3 (range 0 n)))
    end
  | _ => mret false
  end.

(** The value a computation returns when started with the empty cache. *)
Definition run {A} (m : memo A) : result A := (m ∅).1.

(** ** Specification vocabulary *)

(** The Dyck conditions on the items of a tuple, read from the head: every
    entry is non-negative, an entry is below its successor plus two, and
    the last entry is zero. *)
Fixpoint dyck (p : list Z) : bool :=
  match p with
  | [] => true
  | h :: tail =>
      (0 <=? h)
      && match tail with [] => h =? 0 | t0 :: _ => h <? t0 + 2 end
      && dyck tail
  end.

(** Every entry of the cache holds the boxes of its key. *)
Definition cache_ok (_cache : gmap (list Z) (gset (Z * Z))) : Prop :=
  ∀ path boxes, _cache !! path = Some boxes → boxes = _boxes_under_path path.

(** [m] returns [v], without raising, from any such cache, and leaves
    such a cache. *)
Definition returns {A} (m : memo A) (v : A) : Prop :=
  ∀ _cache, cache_ok _cache →
    ∃ _cache', m _cache = (Ok v, _cache') ∧ cache_ok _cache'.

(** The step test of [is_dyck_path] at position [i], and the outcome of
    running it along the items. *)
Definition step_test (items : list Z) (i : Z) : result bool :=
  x ← py_index items i; y ← py_index items (i + 1); Ok (x <? y + 2).

Fixpoint steps (p : list Z) : bool :=
  match p with
  | x :: (y :: _) as tail => (x <? y + 2) && steps tail
  | _ => true
  end.

(** The conditions of a Dyck path in the words of the specification. *)
Definition dyck_conditions (items : list Z) : Prop :=
  (∀ entry, entry ∈ items → 0 ≤ entry)
  ∧ (∀ (i : nat) x y, items !! i = Some x → items !! S i = Some y → x < y + 2)
  ∧ (items = [] ∨ last items = Some 0).

(** The tuples [(head,) + tail] yielded for one tail. *)
Definition heads_of (primitive : bool) (tail : list Z) : list (list Z) :=
  map (λ head, head :: tail) (range (if primitive then 1 else 0) (hd 0 tail + 2)).

(** The tuples a call of [all_dyck_paths(n, primitive)] is to yield. *)
Definition wanted (n : Z) (primitive : bool) (t : list Z) : Prop :=
  len t = n ∧ is_dyck_path (tuple_of t) = Ok true
  ∧ (primitive = true → is_primitive t = Ok true).

(** [sum(l)] *)
Definition py_sum (l : list Z) : Z := foldl Z.add 0 l.

(** The boxes of the rows of [path], the first of which is row [a], in
    the order the comprehension of [_boxes_under_path] meets them. *)
Definition box_list (a : Z) (path : list Z) : list (Z * Z) :=
  flat_map (λ '(i, k), map (λ j, (i, j)) (range (i + 1) (i + 1 + k)))
           (imap (λ i x, (a + Z.of_nat i, x)) path).

(** [ordering[i]] for a row index [i] in range. *)
Definition rank (ordering : list Z) (i : Z) : Z := ordering !!! Z.to_nat i.

(** The orientation a total ordering of the rows gives to a set of boxes:
    a box [(i, j)] ascends when [ordering[i] < ordering[j]]. *)
Definition oriented (n : Z) (boxes : gset (Z * Z)) (ordering : list Z) : orientation :=
  (n, filter (λ b, rank ordering b.1 < rank ordering b.2) boxes,
      filter (λ b, ¬ rank ordering b.1 < rank ordering b.2) boxes).

(** The rows of [path] after [path[i] += 1] for every box [(i, j)] of a
    list, and the number of boxes of a list in row [r]. *)
Definition add_rows (boxes : list (Z * Z)) (path : list Z) : list Z :=
  foldl (λ path b, alter (λ x, x + 1) (Z.to_nat b.1) path) path boxes.

Definition row_count (r : nat) (boxes : list (Z * Z)) : nat :=
  length (filter (λ b, Z.to_nat b.1 = r) boxes).

(** What [is_orientation] computes on a triple whose fields have the
    expected types. *)
Definition orientation_ok (ao : orientation) : bool :=
  let '(n, ascents, descents) := ao in
  match underlying_path n ascents descents with
  | Raise _ => false
  | Ok path =>
      dyck path
      && bool_decide (ascents ## descents)
      && bool_decide (ascents ∪ descents = _boxes_under_path path)
      && no_3_cycle ascents descents (combinations3 (range 0 n))
  end.

(** Making room for a new rank [t]: the ranks from [t] on move up by one. *)
Definition bump (t r : Z) : Z := if r <? t then r else r + 1.

(** The rank given to a new first row whose boxes [(0, j)], [1 <= j <= h],
    descend when [descends j] holds, the other rows [1 ..] being ranked by
    [ordering]: just above its descending neighbours. *)
Definition threshold (descends : Z → bool) (ordering : list Z) (h : Z) : Z :=
  foldr Z.max 0
        ((λ j, rank ordering (j - 1) + 1) <$> filter (λ j, descends j = true) (range 1 (h + 1))).

(** The value of an outcome, when there is one. *)
Definition result_option {A} (r : result A) : option A :=
  match r with Ok a => Some a | Raise _ => None end.

(** A path with every entry raised by one and a 0 appended. *)
Definition raise (p : list Z) : list Z := ((λ x, x + 1) <$> p) ++ [0].

(** The position [i] stands for in a list of length [len], a negative [i]
    counting from the end, and whether it is one. *)
Definition slot (len i : Z) : Z := if i <? 0 then i + len else i.

Definition in_slots (len i : Z) : bool := (0 <=? slot len i) && (slot len i <? len).

(** The rows of [path] after one is added at the position of row [b.1], as
    [position] gives it, for every box [b] of a list. *)
Definition add_at (position : Z → nat) (boxes : list (Z * Z)) (path : list Z) : list Z :=
  foldl (λ path b, alter (λ x, x + 1) (position b.1) path) path boxes.

(** ** Functions that assert *)

(** The outcome of a function with [assert] statements: its value, an
    [AssertionError] from a failed [assert], or another exception. *)
Inductive checked (A : Type) : Type :=
  | Passed (a : A)
  | AssertionError
  | Uncaught (e : exn).
Arguments Passed {A} a.
Arguments AssertionError {A}.
Arguments Uncaught {A} e.

#[global] Instance checked_ret : MRet checked := λ A a, Passed a.
#[global] Instance checked_bind : MBind checked := λ A B f m,
  match m with
  | Passed a => f a
  | AssertionError => AssertionError
  | Uncaught e => Uncaught e
  end.

(** An expression evaluated inside such a function. *)
Definition unchecked {A} (r : result A) : checked A :=
  match r with Ok a => Passed a | Raise e => Uncaught e end.

(** [assert b] *)
Definition py_assert (b : bool) : checked unit :=
  if b then Passed tt else AssertionError.

(** [itertools.product(l, repeat=r)], the last position varying fastest. *)
Fixpoint product {A} (l : list A) (r : nat) : list (list A) :=
  match r with
  | O => [[]]
  | S r' => x ← l; (λ t, x :: t) <$> product l r'
  end.

(** [filter(f, l)] of Python 2: the list of the items on which [f] is
    true, [f] being called on every item in turn. *)
Fixpoint py_filter {A} (f : A → result bool) (l : list A) : result (list A) :=
  match l with
  | [] => Ok []
  | x :: xs =>
      b ← f x;
      rest ← py_filter f xs;
      Ok (if b : bool then x :: rest else rest)
  end.

(** The comparison [s <= t] of two tuples of integers: the first position
    where they differ decides, and a proper prefix comes first. *)
Fixpoint tuple_leb (s t : list Z) : bool :=
  match s, t with
  | [], _ => true
  | _ :: _, [] => false
  | x :: s', y :: t' => (x <? y) || ((x =? y) && tuple_leb s' t')
  end.

Definition tuple_le (s t : list Z) : Prop := tuple_leb s t = true.

#[global] Instance tuple_le_dec s t : Decision (tuple_le s t) :=
  decide (tuple_leb s t = true).

(** [sorted(l)] for a list of tuples of integers.  The order is total and
    antisymmetric, so the sorted list does not depend on the algorithm. *)
Definition py_sorted (l : list (list Z)) : list (list Z) := merge_sort tuple_le l.

(** The body of the loop of [test_generation], for one [n]. *)
Definition test_generation_at (n : Z) : checked unit :=
  paths ← unchecked (all_dyck_paths n false);
  let iterated := py_sorted paths in
  filtered ← unchecked (py_filter (λ t, is_dyck_path (tuple_of t))
                                  (product (range 0 n) (Z.to_nat n)));
  _ ← py_assert (bool_decide (iterated = filtered));
  primitive_paths ← unchecked (all_dyck_paths n true);
  let primitive_iterated := py_sorted primitive_paths in
  primitive_filtered ← unchecked (py_filter is_primitive filtered);
  py_assert (bool_decide (primitive_iterated = primitive_filtered)).

(** [test_generation] *)
Definition test_generation (max_n : Z) : checked unit :=
  py_for (λ _ n, test_generation_at n) tt (range 0 (max_n + 1)).

(** Whether [is_primitive] returns true. *)
Definition primitive (t : list Z) : bool :=
  match is_primitive t with Ok true => true | _ => false end.

(** ** Strings *)

(** A Python [str], as the list of its characters. *)
Definition str : Type := list Ascii.ascii.

(** The characters [str.rstrip()] removes: space, tab, line feed, vertical
    tab, form feed and carriage return. *)
Definition is_whitespace (c : Ascii.ascii) : bool :=
  bool_decide (c ∈ [" "; "009"; "010"; "011"; "012"; "013"]%char).

Fixpoint lstrip (s : str) : str :=
  match s with
  | c :: rest => if is_whitespace c then lstrip rest else s
  | [] => []
  end.

(** [s.rstrip()] *)
Definition rstrip (s : str) : str := reverse (lstrip (reverse s)).

(** [sep.join(l)] *)
Fixpoint join (sep : str) (l : list str) : str :=
  match l with
  | [] => []
  | [s] => s
  | s :: rest => s ++ sep ++ join sep rest
  end.

(** [max(l)] *)
Definition py_max (l : list Z) : result Z :=
  match l with
  | [] => Raise ValueError
  | x :: xs => Ok (foldl Z.max x xs)
  end.

(** ** dyckpath.py: the ascii art *)

(** The two characters a row of the picture gets for one entry. *)
Definition ascii_cell (height entry : Z) : str :=
  if height <=? entry then ["/"; "\"]%char else [" "; " "]%char.

(** The row of the picture at [height], as appended to [rows]. *)
Definition ascii_row (path : list Z) (height : Z) : str :=
  rstrip (foldl (λ row entry, row ++ ascii_cell height entry)
                (replicate (Z.to_nat height) " "%char) path).

(** [ascii], on the items of the tuple [path]. *)
Definition ascii (path : list Z) : checked str :=
  valid ← unchecked (is_dyck_path (tuple_of path));
  _ ← py_assert valid;
  top ← unchecked (py_max path);
  let rows := foldl (λ rows height, rows ++ [ascii_row path height])
                    [] (range 0 (top + 1)) in
  mret (join ["010"%char] (reverse rows)).

(** [s.count(c)] for a character [c]. *)
Definition occurrences (c : Ascii.ascii) (s : str) : nat :=
  length (filter (λ x, x = c) s).

(** ** [graphical]: the heights *)

(** [height[hi] = max(height[hi], height[lo]+1)] *)
Definition relax (height : list Z) (lo hi : Z) : result (list Z) :=
  a ← py_index height hi;
  b ← py_index height lo;
  py_setitem height hi (Z.max a (b + 1)).

(** The list [height] that [acyclic.graphical] computes for
    [(n, ascents, descents)] before it draws anything (the loop under
    "compute heights").  The order in which a [for] loop meets the members
    of a frozenset is not fixed by the language: the two sets are given as
    the lists of their members in that order. *)
Definition graphical_heights (n : Z) (ascents descents : list (Z * Z)) : result (list Z) :=
  py_for (λ height _,
            height ← py_for (λ height '(i, j), relax height i j) height ascents;
            py_for (λ height '(i, j), relax height j i) height descents)
         (replicate (Z.to_nat n) 0) (range 0 n).

(** The entry of [height] for row [v], the list after one assignment of
    [relax], and the pairs [(lo, hi)] the loops relax in one round. *)
Definition height_of (height : list Z) (v : Z) : Z := height !!! Z.to_nat v.

Definition raised (height : list Z) (e : Z * Z) : list Z :=
  <[Z.to_nat e.2 := Z.max (height_of height e.2) (height_of height e.1 + 1)]> height.

Definition relaxed_pairs (ascents descents : list (Z * Z)) : list (Z * Z) :=
  ascents ++ ((λ b, (b.2, b.1)) <$> descents).

(** Every pair whose upper end has a position below [k] is in order. *)
Definition settled (pos : Z → Z) (es : list (Z * Z)) (k : Z) (height : list Z) : Prop :=
  ∀ lo hi, (lo, hi) ∈ es → pos hi < k → height_of height lo < height_of height hi.

(** ** [is_orientation] within the limits of the interpreter *)

(** The definitions above take Python's integers and lists as unbounded.
    [is_orientation] meets two limits of the interpreter before its [try]
    block: an integer outside [-maxint-1 .. maxint] ([sys.maxint]) is a
    [long], which [isinstance(n, int)] refuses, and a list holds at most
    [capacity] items. *)
Record limits := { maxint : N; capacity : N }.

(** A 64-bit CPython 2: [sys.maxint] is [2**63 - 1], and no list holds
    [2**61] items, whose pointers alone would fill the address space. *)
Definition cpython64 : limits :=
  {| maxint := (2 ^ 63 - 1)%N; capacity := (2 ^ 61 - 1)%N |}.

(** The outcome of code that builds a list: what it comes to when the list
    fits, or [MemoryError], which no handler of [is_orientation] catches. *)
Inductive sized (A : Type) : Type :=
  | Fits (a : A)
  | MemoryError.
Arguments Fits {A} a.
Arguments MemoryError {A}.

(** [isinstance(n, int)] for an integer [n] *)
Definition is_int (L : limits) (n : Z) : bool :=
  (- Z.of_N (maxint L) - 1 <=? n) && (n <=? Z.of_N (maxint L)).

(** [[0]*n] *)
Definition zeros (L : limits) (n : Z) : sized (list Z) :=
  if Z.of_N (capacity L) <? n then MemoryError else Fits (replicate (Z.to_nat n) 0).

(** [is_orientation] with these limits: [path = [0]*n] stands before the
    [try] block, so that its [MemoryError] leaves the function, before the
    cache is read. *)
Definition is_orientation_sized (L : limits) (ao : pyval) : sized (memo bool) :=
  match ao with
  | VTuple [VInt n; VFrozenset ascents; VFrozenset descents] =>
    if negb (is_int L n) then Fits (mret false) else
    match zeros L n with
    | MemoryError => MemoryError
    | Fits path =>
      Fits
        match (path ← count_rows ascents path; count_rows descents path) with
        | Raise (ValueError | TypeError | IndexError) => mret false
        | Ok path =>
          valid ← lift (is_dyck_path (tuple_of path));
          if negb valid then mret false else
          if negb (bool_decide (ascents ## descents)) then mret false else
          boxes ← boxes_under_path path;
          if negb (bool_decide (ascents ∪ descents = boxes)) then mret false else
          mret (no_3_cycle ascents descents (combinations3 (range 0 n)))
        end
    end
  | _ => Fits (mret false)
  end.

(** * Properties *)

(** ** Basic facts about the Python primitives *)

Lemma len_nil {A} : len (@nil A) = 0.
Proof. reflexivity. Qed.

Lemma len_cons {A} (x : A) l : len (x :: l) = len l + 1.
Proof. unfold len. simpl. lia. Qed.

Lemma len_nonneg {A} (l : list A) : 0 ≤ len l.
Proof. unfold len. lia. Qed.

Lemma len_app {A} (l k : list A) : len (l ++ k) = len l + len k.
Proof. unfold len. rewrite length_app. lia. Qed.

Lemma elem_of_range a b x : x ∈ range a b ↔ a ≤ x < b.
Proof. unfold range. rewrite elem_of_seqZ. lia. Qed.

Lemma range_empty a b : b ≤ a → range a b = [].
Proof.
  intros Hle. unfold range, seqZ.
  replace (Z.to_nat (b - a)) with 0%nat by lia. reflexivity.
Qed.

Lemma range_cons a b : a < b → range a b = a :: range (a + 1) b.
Proof.
  intros Hlt. unfold range.
  rewrite (seqZ_cons a (b - a)) by lia.
  f_equal. f_equal; lia.
Qed.

Lemma range_snoc a b : a ≤ b → range a (b + 1) = range a b ++ [b].
Proof.
  intros Hle. unfold range.
  replace (b + 1 - a) with ((b - a) + 1) by lia.
  rewrite seqZ_app by lia. simpl.
  f_equal. unfold seqZ. simpl. f_equal. lia.
Qed.

Lemma NoDup_range a b : NoDup (range a b).
Proof. apply NoDup_seqZ. Qed.

Lemma length_range a b : len (range a b) = Z.max 0 (b - a).
Proof. unfold len, range. rewrite length_seqZ. lia. Qed.

Lemma py_slot_ok {A} (l : list A) i :
  0 ≤ i < len l → py_slot l i = Ok (Z.to_nat i).
Proof.
  intros Hi. unfold py_slot.
  destruct (Z.ltb_spec i 0); [lia|].
  destruct (Z.leb_spec 0 i); [|lia].
  destruct (Z.ltb_spec i (len l)); [|lia]. reflexivity.
Qed.

Lemma py_slot_neg {A} (l : list A) i :
  - len l ≤ i < 0 → py_slot l i = Ok (Z.to_nat (i + len l)).
Proof.
  intros Hi. unfold py_slot.
  destruct (Z.ltb_spec i 0); [|lia].
  destruct (Z.leb_spec 0 (i + len l)); [|lia].
  destruct (Z.ltb_spec (i + len l) (len l)); [|lia]. reflexivity.
Qed.

Lemma py_slot_out {A} (l : list A) i :
  i < - len l ∨ len l ≤ i → py_slot l i = Raise IndexError.
Proof.
  intros Hi. unfold py_slot. pose proof (len_nonneg l).
  destruct (Z.ltb_spec i 0).
  - destruct (Z.leb_spec 0 (i + len l)); [lia|]. reflexivity.
  - destruct (Z.leb_spec 0 i); [|lia].
    destruct (Z.ltb_spec i (len l)); [lia|]. reflexivity.
Qed.

Lemma py_slot_cases {A} (l : list A) i :
  (0 ≤ i < len l ∧ py_slot l i = Ok (Z.to_nat i))
  ∨ (- len l ≤ i < 0 ∧ py_slot l i = Ok (Z.to_nat (i + len l)))
  ∨ ((i < - len l ∨ len l ≤ i) ∧ py_slot l i = Raise IndexError).
Proof.
  destruct (decide (0 ≤ i < len l)) as [H|H].
  { left. split; [exact H|]. apply py_slot_ok, H. }
  destruct (decide (- len l ≤ i < 0)) as [H'|H'].
  { right. left. split; [exact H'|]. apply py_slot_neg, H'. }
  right. right. assert (i < - len l ∨ len l ≤ i) by lia.
  split; [assumption|]. apply py_slot_out. assumption.
Qed.

Lemma py_slot_lt {A} (l : list A) i k :
  py_slot l i = Ok k → (k < length l)%nat.
Proof.
  intros H.
  destruct (py_slot_cases l i) as [[Hi E]|[[Hi E]|[Hi E]]];
    rewrite E in H; try discriminate; injection H as <-; unfold len in *; lia.
Qed.

Lemma py_index_ok {A} (l : list A) i x :
  0 ≤ i → l !! Z.to_nat i = Some x → py_index l i = Ok x.
Proof.
  intros Hi Hx. unfold py_index.
  rewrite py_slot_ok.
  - simpl. rewrite Hx. reflexivity.
  - apply lookup_lt_Some in Hx. unfold len. lia.
Qed.

Lemma py_index_nat {A} (l : list A) (k : nat) x :
  l !! k = Some x → py_index l (Z.of_nat k) = Ok x.
Proof.
  intros Hx. apply py_index_ok; [lia|]. rewrite Nat2Z.id. exact Hx.
Qed.

Lemma py_index_out {A} (l : list A) i :
  i < - len l ∨ len l ≤ i → py_index l i = Raise IndexError.
Proof. intros Hi. unfold py_index. rewrite py_slot_out by exact Hi. reflexivity. Qed.

Lemma py_index_last {A} (l : list A) x :
  py_index (l ++ [x]) (-1) = Ok x.
Proof.
  unfold py_index. rewrite py_slot_neg.
  - simpl. rewrite len_app.
    replace (Z.to_nat (-1 + (len l + len [x]))) with (length l)
      by (unfold len; simpl; lia).
    rewrite lookup_app_r by lia. rewrite Nat.sub_diag. reflexivity.
  - rewrite len_app. pose proof (len_nonneg l). change (len [x]) with 1. lia.
Qed.

Lemma py_all_ok {A} (f : A → result bool) (g : A → bool) l :
  (∀ x, x ∈ l → f x = Ok (g x)) → py_all f l = Ok (forallb g l).
Proof.
  induction l as [|x l IH]; intros Hf; simpl; [reflexivity|].
  rewrite Hf by left. simpl.
  destruct (g x); simpl; [|reflexivity].
  apply IH. intros y Hy. apply Hf. right. exact Hy.
Qed.

Lemma ints_of_fmap (p : list Z) : ints_of (VInt <$> p) = Some p.
Proof.
  unfold ints_of. apply mapM_Some, Forall2_fmap_l, Forall_Forall2_diag.
  apply Forall_true. reflexivity.
Qed.

(** ** [is_dyck_path] *)

Lemma step_tests_ok (pre items : list Z) :
  py_all (step_test (pre ++ items))
         (range (len pre) (len pre + len items - 1)) = Ok (steps items).
Proof.
  revert pre. induction items as [|x [|y l] IH]; intros pre.
  - rewrite range_empty by (rewrite len_nil; lia). reflexivity.
  - rewrite range_empty by (rewrite len_cons, len_nil; lia). reflexivity.
  - rewrite range_cons by (rewrite !len_cons; pose proof (len_nonneg l); lia).
    cbn [py_all]. unfold step_test.
    change (len pre) with (Z.of_nat (length pre)).
    rewrite (py_index_nat _ (length pre) x)
      by (rewrite lookup_app_r, Nat.sub_diag by lia; reflexivity).
    replace (Z.of_nat (length pre) + 1) with (Z.of_nat (S (length pre))) by lia.
    rewrite (py_index_nat _ (S (length pre)) y)
      by (rewrite lookup_app_r by lia;
          replace (S (length pre) - length pre)%nat with 1%nat by lia; reflexivity).
    change (steps (x :: y :: l)) with ((x <? y + 2) && steps (y :: l)).
    cbn [mbind result_bind].
    destruct (x <? y + 2); [|reflexivity]. cbn [andb].
    specialize (IH (pre ++ [x])).
    rewrite <- app_assoc in IH. cbn [app] in IH.
    rewrite len_app in IH. change (len [x]) with 1 in IH.
    unfold step_test in IH. rewrite <- IH. f_equal. f_equal; unfold len; simpl; lia.
Qed.

Lemma step_tests_all (items : list Z) :
  py_all (step_test items) (range 0 (len items - 1)) = Ok (steps items).
Proof. apply (step_tests_ok [] items). Qed.

Lemma dyck_tests (p : list Z) :
  dyck p = forallb (λ entry, 0 <=? entry) p && steps p
           && match last p with None => true | Some x => x =? 0 end.
Proof.
  induction p as [|h [|t0 l] IH]; [reflexivity| |].
  - cbn. destruct (0 <=? h), (h =? 0); reflexivity.
  - change (dyck (h :: t0 :: l)) with ((0 <=? h) && (h <? t0 + 2) && dyck (t0 :: l)).
    rewrite IH.
    change (last (h :: t0 :: l)) with (last (t0 :: l)).
    change (steps (h :: t0 :: l)) with ((h <? t0 + 2) && steps (t0 :: l)).
    cbn [forallb].
    destruct (0 <=? h), (h <? t0 + 2), (0 <=? t0), (forallb _ l), (steps (t0 :: l));
      reflexivity.
Qed.

(** On a tuple of integers the three tests run without raising. *)
Lemma is_dyck_path_tuple (p : list Z) : is_dyck_path (tuple_of p) = Ok (dyck p).
Proof.
  unfold is_dyck_path, tuple_of. rewrite ints_of_fmap, dyck_tests.
  destruct (forallb _ p); [|reflexivity]. cbn [negb andb].
  fold (step_test p). rewrite step_tests_all. cbn [mbind result_bind].
  destruct (steps p); [|reflexivity]. cbn [negb andb].
  destruct p as [|x p _] using rev_ind; [reflexivity|].
  rewrite last_snoc, py_index_last.
  destruct (Z.eqb_spec (len (p ++ [x])) 0) as [E|_]; [|reflexivity].
  rewrite len_app in E. pose proof (len_nonneg p). change (len [x]) with 1 in E. lia.
Qed.

(** Anything that is not a tuple of integers is refused. *)
Lemma is_dyck_path_not_tuple (v : pyval) :
  (∀ p, v ≠ tuple_of p) → is_dyck_path v = Ok false.
Proof.
  intros Hv. destruct v as [| entries | | | |]; try reflexivity.
  unfold is_dyck_path. destruct (ints_of entries) as [items|] eqn:E; [|reflexivity].
  exfalso. apply (Hv items). unfold tuple_of. f_equal.
  apply mapM_Some in E. clear Hv.
  induction E as [|v n entries items Hn _ IH]; [reflexivity|].
  destruct v; try discriminate. injection Hn as ->. cbn. f_equal. exact IH.
Qed.


Lemma dyck_conditions_nil : dyck_conditions [].
Proof.
  split; [|split].
  - intros entry H. inversion H.
  - intros i x y H. discriminate.
  - left. reflexivity.
Qed.

Lemma dyck_conditions_cons h tail :
  dyck_conditions (h :: tail) ↔
    0 ≤ h ∧ match tail with [] => h = 0 | t0 :: _ => h < t0 + 2 end
    ∧ dyck_conditions tail.
Proof.
  unfold dyck_conditions. split.
  - intros (Hpos & Hstep & Hlast). split; [apply Hpos; left|]. split.
    + destruct tail as [|t0 l].
      * destruct Hlast as [?|Hl]; [discriminate|]. injection Hl as ->. reflexivity.
      * apply (Hstep 0%nat); reflexivity.
    + split; [|split].
      * intros entry He. apply Hpos. right. exact He.
      * intros i x y Hx Hy. apply (Hstep (S i)); assumption.
      * destruct tail as [|t0 l]; [left; reflexivity|right].
        destruct Hlast as [?|Hl]; [discriminate|exact Hl].
  - intros (Hh & Hhd & Hpos & Hstep & Hlast). split; [|split].
    + intros entry He. apply elem_of_cons in He as [->|He]; [exact Hh|apply Hpos, He].
    + intros [|i] x y Hx Hy.
      * injection Hx as <-. destruct tail as [|t0 l]; [discriminate|].
        injection Hy as <-. exact Hhd.
      * apply (Hstep i); assumption.
    + right. destruct tail as [|t0 l]; [subst h; reflexivity|].
      destruct Hlast as [?|Hl]; [discriminate|exact Hl].
Qed.

Lemma dyck_cons h tail :
  dyck (h :: tail) = true ↔
    0 ≤ h ∧ match tail with [] => h = 0 | t0 :: _ => h < t0 + 2 end
    ∧ dyck tail = true.
Proof.
  cbn [dyck]. rewrite !andb_true_iff, Z.leb_le.
  destruct tail as [|t0 l]; [rewrite Z.eqb_eq|rewrite Z.ltb_lt]; tauto.
Qed.

Lemma dyck_spec (p : list Z) : dyck p = true ↔ dyck_conditions p.
Proof.
  induction p as [|h tail IH].
  - split; [intros _; apply dyck_conditions_nil|reflexivity].
  - rewrite dyck_cons, dyck_conditions_cons, IH. reflexivity.
Qed.

(** C5, as amended: on a tuple of integers [is_dyck_path] returns a
    boolean, true exactly when every entry is non-negative, every adjacent
    pair satisfies [path[i] < path[i+1] + 2] and the tuple is empty or ends
    in 0; on a list of integers it returns false. *)
Theorem is_dyck_path_spec (items : list Z) :
  (∃ b, is_dyck_path (tuple_of items) = Ok b
        ∧ (b = true ↔ dyck_conditions items))
  ∧ is_dyck_path (list_of items) = Ok false.
Proof.
  split; [|reflexivity].
  exists (dyck items). split; [apply is_dyck_path_tuple|apply dyck_spec].
Qed.

(** C5 fails as stated: the empty list is a sequence of integers meeting
    the three conditions, and [is_dyck_path] returns false on it. *)
Lemma is_dyck_path_list_counterexample :
  dyck_conditions [] ∧ is_dyck_path (list_of []) = Ok false.
Proof. split; [apply dyck_conditions_nil|reflexivity]. Qed.

(** ** [is_primitive] *)

Lemma py_find_first x pre rest :
  x ∉ pre → py_find x (pre ++ x :: rest) = Ok (len pre).
Proof.
  induction pre as [|y pre IH]; intros Hx; cbn [app py_find].
  - rewrite Z.eqb_refl. reflexivity.
  - apply not_elem_of_cons in Hx as [Hne Hx].
    destruct (Z.eqb_spec y x) as [->|_]; [congruence|].
    rewrite IH by exact Hx. cbn. rewrite len_cons. reflexivity.
Qed.

Lemma py_find_absent x l : x ∉ l → py_find x l = Raise ValueError.
Proof.
  induction l as [|y l IH]; intros Hx; cbn [py_find]; [reflexivity|].
  apply not_elem_of_cons in Hx as [Hne Hx].
  destruct (Z.eqb_spec y x) as [->|_]; [congruence|].
  rewrite IH by exact Hx. reflexivity.
Qed.

Lemma is_primitive_nil : is_primitive [] = Ok true.
Proof. reflexivity. Qed.

Lemma is_primitive_first pre rest :
  0 ∉ pre →
  is_primitive (pre ++ 0 :: rest) = Ok (bool_decide (rest = [])).
Proof.
  intros Hpre. unfold is_primitive.
  rewrite py_find_first by exact Hpre.
  rewrite len_app, len_cons. pose proof (len_nonneg pre). pose proof (len_nonneg rest).
  destruct (Z.eqb_spec (len pre + (len rest + 1)) 0) as [?|_]; [lia|].
  cbn [mbind result_bind]. f_equal. destruct rest as [|r rest].
  - rewrite len_nil. rewrite bool_decide_eq_true_2 by reflexivity. apply Z.eqb_eq. lia.
  - rewrite len_cons in *. rewrite bool_decide_eq_false_2 by discriminate.
    apply Z.eqb_neq. pose proof (len_nonneg rest). lia.
Qed.

Lemma is_primitive_no_zero path :
  path ≠ [] → 0 ∉ path → is_primitive path = Raise ValueError.
Proof.
  intros Hne Hz. unfold is_primitive.
  destruct (Z.eqb_spec (len path) 0) as [E|_].
  - destruct path; [congruence|]. rewrite len_cons in E. pose proof (len_nonneg path). lia.
  - rewrite py_find_absent by exact Hz. reflexivity.
Qed.

(** C7, as amended: on a sequence of integers that is empty or holds a 0,
    [is_primitive] returns a boolean, true exactly when the sequence is
    empty or its first 0 is its last item; on a non-empty sequence without
    0 it raises [ValueError]. *)
Theorem is_primitive_spec (path : list Z) :
  match is_primitive path with
  | Ok b =>
      (path = [] ∨ 0 ∈ path)
      ∧ (b = true ↔ path = [] ∨ ∃ pre, path = pre ++ [0] ∧ 0 ∉ pre)
  | Raise e => e = ValueError ∧ path ≠ [] ∧ 0 ∉ path
  end.
Proof.
  destruct path as [|x l]; [cbn; split; [left|]; tauto|].
  set (path := x :: l).
  destruct (decide (0 ∈ path)) as [Hin|Hout].
  - destruct (list_elem_of_split_l _ _ Hin) as (pre & rest & E & Hpre).
    rewrite E, is_primitive_first by exact Hpre.
    split; [right; rewrite <- E; exact Hin|].
    rewrite bool_decide_eq_true. split.
    + intros ->. right. exists pre. split; [reflexivity|exact Hpre].
    + intros [Hnil|(pre' & E' & Hpre')].
      { destruct pre; discriminate. }
      destruct rest as [|r rest _] using rev_ind; [reflexivity|].
      exfalso. change (pre ++ 0 :: rest ++ [r]) with (pre ++ (0 :: rest) ++ [r]) in E'.
      rewrite app_assoc in E'. apply app_inj_tail in E' as [<- ->].
      apply Hpre'. apply elem_of_app. right. left.
  - rewrite is_primitive_no_zero by (exact Hout || discriminate).
    split; [reflexivity|]. split; [discriminate|exact Hout].
Qed.

(** C7 fails as stated: on the tuple [(1,)] no boolean is returned. *)
Lemma is_primitive_counterexample :
  is_primitive [1] = Raise ValueError ∧ ¬ ∃ b, is_primitive [1] = Ok b.
Proof. split; [reflexivity|]. intros [b Hb]. discriminate. Qed.

Lemma is_primitive_cons h tail :
  is_primitive (h :: tail) = Ok true ↔
    (tail = [] ∧ h = 0) ∨ (tail ≠ [] ∧ h ≠ 0 ∧ is_primitive tail = Ok true).
Proof.
  unfold is_primitive. rewrite len_cons. pose proof (len_nonneg tail) as Hlen.
  destruct (Z.eqb_spec (len tail + 1) 0) as [?|_]; [lia|].
  cbn [py_find].
  destruct (Z.eqb_spec h 0) as [->|Hh].
  - destruct tail as [|t tail].
    + split; [left; split; reflexivity|reflexivity].
    + rewrite len_cons in *. pose proof (len_nonneg tail). cbn [mbind result_bind].
      destruct (Z.eqb_spec 0 (len tail + 1 + 1 - 1)) as [?|_]; [lia|].
      split; [discriminate|]. intros [[? _]|(_ & ? & _)]; [discriminate|congruence].
  - destruct tail as [|t tail].
    + cbn. split; [discriminate|]. intros [[_ ?]|(? & _)]; congruence.
    + set (tl := t :: tail) in *.
      destruct (Z.eqb_spec (len tl) 0) as [E|_].
      { unfold tl in E. rewrite len_cons in E. pose proof (len_nonneg tail). lia. }
      destruct (py_find 0 tl) as [i|e]; cbn.
      * replace (i + 1 =? len tl + 1 - 1) with (i =? len tl - 1)
          by (destruct (Z.eqb_spec i (len tl - 1)), (Z.eqb_spec (i + 1) (len tl + 1 - 1)); lia || reflexivity).
        split.
        -- intros Hi. right. split; [discriminate|]. split; [exact Hh|exact Hi].
        -- intros [[? _]|(_ & _ & Hi)]; [discriminate|exact Hi].
      * split; [discriminate|]. intros [[? _]|(_ & _ & ?)]; discriminate.
Qed.

(** ** [all_dyck_paths] *)

Lemma all_dyck_paths_eq n primitive :
  all_dyck_paths n primitive =
    if decide (n = 0) then Ok [[]]
    else if decide (n = 1) then Ok [[0]]
    else if decide (2 ≤ n) then
      tails ← all_dyck_paths (n - 1) primitive; extend_tails primitive tails
    else Ok [].
Proof.
  funelim (all_dyck_paths n primitive).
  - rewrite decide_True by assumption. reflexivity.
  - rewrite decide_False, decide_True by assumption. reflexivity.
  - rewrite !decide_False, decide_True by assumption. reflexivity.
  - rewrite !decide_False by assumption. reflexivity.
Qed.

(** C10: for a negative [n] the generator yields nothing and raises
    nothing, whatever the flag. *)
Theorem all_dyck_paths_negative (n : Z) (primitive : bool) :
  n < 0 → all_dyck_paths n primitive = Ok [].
Proof.
  intros Hn. rewrite all_dyck_paths_eq.
  rewrite !decide_False by lia. reflexivity.
Qed.

Lemma all_dyck_paths_negative_witness :
  all_dyck_paths (-3) true = Ok [] ∧ all_dyck_paths (-3) false = Ok [].
Proof.
  split; apply all_dyck_paths_negative; lia.
Defined.

Lemma extend_tail_ok primitive tail :
  tail ≠ [] → extend_tail primitive tail = Ok (heads_of primitive tail).
Proof.
  intros Hne. destruct tail as [|t0 l]; [congruence|]. reflexivity.
Qed.

Lemma extend_tails_ok primitive tails :
  (∀ tail, tail ∈ tails → tail ≠ []) →
  extend_tails primitive tails = Ok (tails ≫= heads_of primitive).
Proof.
  induction tails as [|tail rest IH]; intros Hne; [reflexivity|].
  cbn [extend_tails]. rewrite extend_tail_ok by (apply Hne; left).
  rewrite IH by (intros t Ht; apply Hne; right; exact Ht). reflexivity.
Qed.

Lemma elem_of_heads_of primitive tail t :
  t ∈ heads_of primitive tail ↔
    ∃ h, t = h :: tail ∧ (if primitive then 1 else 0) ≤ h < hd 0 tail + 2.
Proof.
  unfold heads_of. rewrite list_elem_of_fmap.
  split; intros (h & E & Hh); exists h; (split; [exact E|]);
    apply elem_of_range; exact Hh.
Qed.

Lemma NoDup_heads_of primitive tail : NoDup (heads_of primitive tail).
Proof.
  unfold heads_of. apply NoDup_fmap_2; [|apply NoDup_range].
  intros h1 h2 E. injection E as ->. reflexivity.
Qed.

Lemma len_zero_nil {A} (l : list A) : len l = 0 ↔ l = [].
Proof.
  destruct l; [tauto|]. rewrite len_cons. pose proof (len_nonneg l).
  split; [lia|discriminate].
Qed.

Lemma Ok_eq {A} (a b : A) : Ok a = Ok b ↔ a = b.
Proof. split; [intros [= ->]|intros ->]; reflexivity. Qed.

Lemma dyck_cons_hd h tail :
  tail ≠ [] →
  dyck (h :: tail) = true ↔ 0 ≤ h < hd 0 tail + 2 ∧ dyck tail = true.
Proof.
  intros Hne. rewrite dyck_cons. destruct tail; [congruence|]. cbn [hd]. tauto.
Qed.

Lemma wanted_nil primitive : wanted 0 primitive [].
Proof. split; [reflexivity|]. split; [reflexivity|]. intros _. reflexivity. Qed.

Lemma wanted_cons n primitive h tail :
  tail ≠ [] →
  wanted n primitive (h :: tail) ↔
    (if primitive then 1 else 0) ≤ h < hd 0 tail + 2
    ∧ wanted (n - 1) primitive tail.
Proof.
  intros Hne. unfold wanted.
  rewrite !is_dyck_path_tuple, len_cons.
  rewrite !Ok_eq, (dyck_cons_hd h tail Hne), is_primitive_cons.
  destruct primitive.
  - split.
    + intros (Hl & (Hh & Hd') & Hp).
      destruct (Hp eq_refl) as [[? _]|(_ & Hh0 & Hp')]; [congruence|].
      split; [lia|]. split; [lia|]. split; [exact Hd'|]. intros _. exact Hp'.
    + intros (Hh & Hl & Hd' & Hp).
      split; [lia|]. split; [split; [lia|exact Hd']|].
      intros _. right. split; [exact Hne|]. split; [lia|]. apply Hp. reflexivity.
  - split.
    + intros (Hl & (Hh & Hd') & _).
      split; [lia|]. split; [lia|]. split; [exact Hd'|]. discriminate.
    + intros (Hh & Hl & Hd' & _).
      split; [lia|]. split; [split; [lia|exact Hd']|]. discriminate.
Qed.

Lemma wanted_one primitive t : wanted 1 primitive t ↔ t = [0].
Proof.
  unfold wanted. rewrite is_dyck_path_tuple. split.
  - rewrite Ok_eq. intros (Hl & Hd & _). destruct t as [|h [|t0 l]].
    + discriminate.
    + apply dyck_cons in Hd as (_ & -> & _). reflexivity.
    + rewrite !len_cons in Hl. pose proof (len_nonneg l). lia.
  - intros ->. split; [reflexivity|]. split; [reflexivity|]. intros _. reflexivity.
Qed.

Lemma all_dyck_paths_complete_nat (k : nat) (primitive : bool) :
  ∃ paths, all_dyck_paths (Z.of_nat k) primitive = Ok paths
    ∧ NoDup paths
    ∧ ∀ t, t ∈ paths ↔ wanted (Z.of_nat k) primitive t.
Proof.
  induction k as [|k IH].
  - exists [[]]. rewrite all_dyck_paths_eq. cbn.
    split; [reflexivity|]. split; [apply NoDup_singleton|].
    intros t. rewrite list_elem_of_singleton. split.
    + intros ->. apply wanted_nil.
    + intros (Hl & _). apply len_zero_nil. exact Hl.
  - rewrite all_dyck_paths_eq. rewrite decide_False by lia.
    destruct (decide (Z.of_nat (S k) = 1)) as [E|E].
    + exists [[0]]. split; [reflexivity|]. split; [apply NoDup_singleton|].
      intros t. rewrite list_elem_of_singleton, E, wanted_one. reflexivity.
    + rewrite decide_True by lia.
      replace (Z.of_nat (S k) - 1) with (Z.of_nat k) by lia.
      destruct IH as (tails & -> & Hnd & Htails). cbn [mbind result_bind].
      assert (Hne : ∀ tail, tail ∈ tails → tail ≠ []).
      { intros tail Ht ->. apply Htails in Ht as (Hl & _). rewrite len_nil in Hl. lia. }
      rewrite extend_tails_ok by exact Hne.
      exists (tails ≫= heads_of primitive). split; [reflexivity|]. split.
      * apply NoDup_bind; [|intros; apply NoDup_heads_of|exact Hnd].
        intros t1 t2 y _ _ H1 H2.
        apply elem_of_heads_of in H1 as (h1 & -> & _).
        apply elem_of_heads_of in H2 as (h2 & [= _ ->] & _). reflexivity.
      * intros t. rewrite list_elem_of_bind. split.
        -- intros (tail & Ht & Htail). apply elem_of_heads_of in Ht as (h & -> & Hh).
           apply wanted_cons; [apply Hne, Htail|]. split; [exact Hh|].
           replace (Z.of_nat (S k) - 1) with (Z.of_nat k) by lia.
           apply Htails, Htail.
        -- intros Hw. destruct t as [|h tail].
           { destruct Hw as (Hl & _). rewrite len_nil in Hl. lia. }
           assert (Hne' : tail ≠ []).
           { intros ->. destruct Hw as (Hl & _). rewrite len_cons, len_nil in Hl. lia. }
           apply wanted_cons in Hw as (Hh & Hw); [|exact Hne'].
           replace (Z.of_nat (S k) - 1) with (Z.of_nat k) in Hw by lia.
           exists tail. split; [|apply Htails, Hw].
           apply elem_of_heads_of. exists h. split; [reflexivity|exact Hh].
Qed.

(** C3: for [n >= 0] the generator yields, each exactly once, the tuples
    of length [n] that pass [is_dyck_path] and, when the flag is set,
    [is_primitive], and nothing else. *)
Theorem all_dyck_paths_complete (n : Z) (primitive : bool) :
  0 ≤ n →
  ∃ paths, all_dyck_paths n primitive = Ok paths
    ∧ NoDup paths
    ∧ ∀ t, t ∈ paths ↔
        len t = n ∧ is_dyck_path (tuple_of t) = Ok true
        ∧ (primitive = true → is_primitive t = Ok true).
Proof.
  intros Hn. rewrite <- (Z2Nat.id n Hn).
  apply all_dyck_paths_complete_nat.
Qed.

Lemma all_dyck_paths_complete_witness :
  ∃ paths, all_dyck_paths 3 true = Ok paths
    ∧ NoDup paths
    ∧ ∀ t, t ∈ paths ↔
        len t = 3 ∧ is_dyck_path (tuple_of t) = Ok true
        ∧ (true = true → is_primitive t = Ok true).
Proof. apply (all_dyck_paths_complete 3 true). lia. Defined.

(** C4: the generator yields 1, 1, 2, 5, 14, 42, 132 paths for
    [n = 0 .. 6], and for [n = 1 .. 6] as many primitive paths of length
    [n] as paths of length [n - 1]. *)
Theorem all_dyck_paths_counts :
  Forall2 (λ n c, ∃ paths, all_dyck_paths n false = Ok paths ∧ len paths = c)
          (range 0 7) [1; 1; 2; 5; 14; 42; 132]
  ∧ Forall (λ n, ∃ paths paths',
              all_dyck_paths n true = Ok paths
              ∧ all_dyck_paths (n - 1) false = Ok paths'
              ∧ len paths = len paths')
           (range 1 7).
Proof.
  replace (range 0 7) with [0; 1; 2; 3; 4; 5; 6] by reflexivity.
  replace (range 1 7) with [1; 2; 3; 4; 5; 6] by reflexivity.
  split.
  - repeat (constructor; [eexists; split; [vm_compute; reflexivity|reflexivity]|]).
    constructor.
  - repeat (constructor;
            [eexists; eexists; split; [vm_compute; reflexivity|];
             split; [vm_compute; reflexivity|reflexivity]|]).
    constructor.
Qed.

(** ** [boxes_under_path] *)

Lemma flat_map_bind {A B} (f : A → list B) l : flat_map f l = l ≫= f.
Proof. induction l as [|x l IH]; [reflexivity|]. cbn. rewrite IH. reflexivity. Qed.

Lemma boxes_box_list path : _boxes_under_path path = list_to_set (box_list 0 path).
Proof. reflexivity. Qed.

Lemma box_list_nil a : box_list a [] = [].
Proof. reflexivity. Qed.

Lemma box_list_cons a k path :
  box_list a (k :: path) =
    map (λ j, (a, j)) (range (a + 1) (a + 1 + k)) ++ box_list (a + 1) path.
Proof.
  unfold box_list. rewrite imap_cons. cbn [flat_map].
  rewrite Z.add_0_r. f_equal. f_equal.
  apply imap_ext. intros i x _. cbn. f_equal. lia.
Qed.

Lemma elem_of_box_list a path i j :
  (i, j) ∈ box_list a path ↔
    ∃ k, a ≤ i ∧ path !! Z.to_nat (i - a) = Some k ∧ i + 1 ≤ j ≤ i + k.
Proof.
  revert a. induction path as [|k path IH]; intros a.
  - rewrite box_list_nil. split; [intros H; inversion H|intros (k & _ & H & _); discriminate].
  - rewrite box_list_cons, elem_of_app, list_elem_of_fmap, IH. split.
    + intros [(j' & [= -> ->] & Hj)|(k' & Hi & Hk & Hj)].
      * apply elem_of_range in Hj. exists k. rewrite Z.sub_diag.
        split; [lia|]. split; [reflexivity|lia].
      * exists k'. split; [lia|]. split; [|exact Hj].
        replace (Z.to_nat (i - a)) with (S (Z.to_nat (i - (a + 1)))) by lia. exact Hk.
    + intros (k' & Hi & Hk & Hj). destruct (decide (i = a)) as [->|Hne].
      * left. rewrite Z.sub_diag in Hk. injection Hk as ->.
        exists j. split; [reflexivity|]. apply elem_of_range. lia.
      * right. exists k'. split; [lia|]. split; [|exact Hj].
        replace (Z.to_nat (i - a)) with (S (Z.to_nat (i - (a + 1)))) in Hk by lia.
        exact Hk.
Qed.

Lemma NoDup_box_list a path : NoDup (box_list a path).
Proof.
  revert a. induction path as [|k path IH]; intros a.
  - apply NoDup_nil_2.
  - rewrite box_list_cons. apply NoDup_app. split; [|split].
    + apply NoDup_fmap_2; [|apply NoDup_range]. intros j1 j2 [= ->]. reflexivity.
    + intros [i j] H1 H2. apply list_elem_of_fmap in H1 as (j' & [= -> ->] & _).
      apply elem_of_box_list in H2 as (k' & Hi & _). lia.
    + apply IH.
Qed.

Lemma foldl_add_from (a : Z) l : foldl Z.add a l = a + foldl Z.add 0 l.
Proof.
  revert a. induction l as [|x l IH]; intros a; cbn [foldl]; [lia|].
  rewrite (IH (a + x)), (IH (0 + x)). lia.
Qed.

Lemma py_sum_cons k l : py_sum (k :: l) = k + py_sum l.
Proof. unfold py_sum. cbn [foldl]. rewrite foldl_add_from. lia. Qed.

Lemma length_box_list a path :
  Forall (λ k, 0 ≤ k) path → len (box_list a path) = py_sum path.
Proof.
  intros Hpos. revert a. induction Hpos as [|k path Hk _ IH]; intros a; [reflexivity|].
  rewrite box_list_cons, len_app, py_sum_cons, IH. f_equal.
  unfold len. rewrite length_map. fold (len (range (a + 1) (a + 1 + k))).
  rewrite length_range. lia.
Qed.

Lemma elem_of_boxes path i j :
  (i, j) ∈ _boxes_under_path path ↔
    ∃ k, 0 ≤ i ∧ path !! Z.to_nat i = Some k ∧ i + 1 ≤ j ≤ i + k.
Proof.
  rewrite boxes_box_list, elem_of_list_to_set, elem_of_box_list.
  rewrite Z.sub_0_r. reflexivity.
Qed.

Lemma size_boxes path :
  Forall (λ k, 0 ≤ k) path → Z.of_nat (size (_boxes_under_path path)) = py_sum path.
Proof.
  intros Hpos. rewrite boxes_box_list, size_list_to_set by apply NoDup_box_list.
  apply length_box_list. exact Hpos.
Qed.

Lemma dyck_nonneg p : dyck p = true → Forall (λ k, 0 ≤ k) p.
Proof.
  intros Hd. apply dyck_spec in Hd as (Hpos & _). apply Forall_forall. exact Hpos.
Qed.

(** *** The cache *)

Lemma cache_ok_empty : cache_ok ∅.
Proof. intros path boxes H. rewrite lookup_empty in H. discriminate. Qed.

Lemma boxes_under_path_returns path :
  returns (boxes_under_path path) (_boxes_under_path path).
Proof.
  intros c Hc. unfold boxes_under_path.
  destruct (c !! path) as [cached|] eqn:E.
  - exists c. rewrite (Hc _ _ E). split; [reflexivity|exact Hc].
  - eexists. split; [reflexivity|].
    intros p s. rewrite lookup_insert. case_decide as Hp.
    + subst p. intros [= <-]. reflexivity.
    + apply Hc.
Qed.

Lemma returns_ret {A} (v : A) : returns (mret v) v.
Proof. intros c Hc. exists c. split; [reflexivity|exact Hc]. Qed.

Lemma returns_lift {A} (v : A) : returns (lift (Ok v)) v.
Proof. intros c Hc. exists c. split; [reflexivity|exact Hc]. Qed.

Lemma returns_bind {A B} (m : memo A) (f : A → memo B) v w :
  returns m v → returns (f v) w → returns (m ≫= f) w.
Proof.
  intros Hm Hf c Hc. destruct (Hm c Hc) as (c1 & E1 & Hc1).
  destruct (Hf c1 Hc1) as (c2 & E2 & Hc2).
  exists c2. split; [|exact Hc2].
  unfold mbind, memo_bind. rewrite E1. exact E2.
Qed.

Lemma returns_inj {A} (m : memo A) v w : returns m v → returns m w → v = w.
Proof.
  intros Hv Hw. destruct (Hv ∅ cache_ok_empty) as (c1 & E1 & _).
  destruct (Hw ∅ cache_ok_empty) as (c2 & E2 & _). congruence.
Qed.

Lemma returns_run {A} (m : memo A) v : returns m v → run m = Ok v.
Proof.
  intros Hv. destruct (Hv ∅ cache_ok_empty) as (c1 & E1 & _).
  unfold run. rewrite E1. reflexivity.
Qed.

(** C6: from a cache that holds what earlier calls stored,
    [boxes_under_path(path)] returns the set of the pairs [(i, j)] with
    [i] a row index and [i+1 <= j <= i+path[i]], and for a valid Dyck path
    this set has [sum(path)] members. *)
Theorem boxes_under_path_spec (path : list Z) :
  ∃ boxes, returns (boxes_under_path path) boxes
    ∧ (∀ i j, (i, j) ∈ boxes ↔
         ∃ k, 0 ≤ i ∧ path !! Z.to_nat i = Some k ∧ i + 1 ≤ j ≤ i + k)
    ∧ (is_dyck_path (tuple_of path) = Ok true →
       Z.of_nat (size boxes) = py_sum path).
Proof.
  exists (_boxes_under_path path). split; [apply boxes_under_path_returns|].
  split; [apply elem_of_boxes|].
  rewrite is_dyck_path_tuple, Ok_eq. intros Hd.
  apply size_boxes, dyck_nonneg, Hd.
Qed.

Lemma boxes_under_path_spec_witness :
  ∃ boxes, returns (boxes_under_path [2; 1; 0]) boxes
    ∧ (∀ i j, (i, j) ∈ boxes ↔
         ∃ k, 0 ≤ i ∧ [2; 1; 0] !! Z.to_nat i = Some k ∧ i + 1 ≤ j ≤ i + k)
    ∧ Z.of_nat (size boxes) = py_sum [2; 1; 0].
Proof.
  destruct (boxes_under_path_spec [2; 1; 0]) as (boxes & Hret & Hmem & Hsize).
  exists boxes. split; [exact Hret|]. split; [exact Hmem|].
  apply Hsize. reflexivity.
Defined.

(** ** [itertools.combinations] and [itertools.permutations] *)

Lemma elem_of_combinations2_range a n i j :
  (i, j) ∈ combinations2 (range a n) ↔ a ≤ i < j ∧ j < n.
Proof.
  remember (Z.to_nat (n - a)) as m eqn:Hm. revert a Hm.
  induction m as [|m IH]; intros a Hm.
  - rewrite range_empty by lia. split; [intros H; inversion H|lia].
  - rewrite range_cons by lia. cbn [combinations2].
    rewrite elem_of_app, list_elem_of_fmap, (IH (a + 1)) by lia. split.
    + intros [(y & [= -> ->] & Hy)|H]; [apply elem_of_range in Hy|]; lia.
    + intros H. destruct (decide (i = a)) as [->|Hne].
      * left. exists j. split; [reflexivity|]. apply elem_of_range. lia.
      * right. lia.
Qed.

Lemma elem_of_combinations3_range a n i j k :
  (i, j, k) ∈ combinations3 (range a n) ↔ a ≤ i < j ∧ j < k < n.
Proof.
  remember (Z.to_nat (n - a)) as m eqn:Hm. revert a Hm.
  induction m as [|m IH]; intros a Hm.
  - rewrite range_empty by lia. split; [intros H; inversion H|lia].
  - rewrite range_cons by lia. cbn [combinations3].
    rewrite elem_of_app, list_elem_of_fmap, (IH (a + 1)) by lia. split.
    + intros [([y z] & [= -> -> ->] & Hy)|H];
        [apply elem_of_combinations2_range in Hy|]; lia.
    + intros H. destruct (decide (i = a)) as [->|Hne].
      * left. exists (j, k). split; [reflexivity|].
        apply elem_of_combinations2_range. lia.
      * right. lia.
Qed.

Lemma no_3_cycle_spec ascents descents triples :
  no_3_cycle ascents descents triples = true ↔
    ∀ t, t ∈ triples → is_3_cycle ascents descents t = false.
Proof.
  induction triples as [|t rest IH]; cbn [no_3_cycle].
  - split; [intros _ t H; inversion H|reflexivity].
  - destruct (is_3_cycle ascents descents t) eqn:E.
    + split; [discriminate|]. intros H. rewrite <- E. symmetry. apply H. left.
    + rewrite IH. split.
      * intros H t' Ht'. apply elem_of_cons in Ht' as [->|Ht']; [exact E|apply H, Ht'].
      * intros H t' Ht'. apply H. right. exact Ht'.
Qed.

Lemma is_3_cycle_false ascents descents i j k :
  is_3_cycle ascents descents (i, j, k) = false ↔
    ¬ ((i, j) ∈ ascents ∧ (j, k) ∈ ascents ∧ (i, k) ∈ descents)
    ∧ ¬ ((i, j) ∈ descents ∧ (j, k) ∈ descents ∧ (i, k) ∈ ascents).
Proof.
  unfold is_3_cycle.
  rewrite orb_false_iff, !andb_false_iff, !bool_decide_eq_false.
  destruct (decide ((i, j) ∈ ascents)), (decide ((j, k) ∈ ascents)),
    (decide ((i, k) ∈ descents)), (decide ((i, j) ∈ descents)),
    (decide ((j, k) ∈ descents)), (decide ((i, k) ∈ ascents)); tauto.
Qed.

Lemma elem_of_picks {A} (l : list A) x rest :
  (x, rest) ∈ picks l ↔ ∃ l1 l2, l = l1 ++ x :: l2 ∧ rest = l1 ++ l2.
Proof.
  revert x rest. induction l as [|y l IH]; intros x rest; cbn [picks].
  - split; [intros H; inversion H|]. intros (l1 & l2 & E & _). destruct l1; discriminate.
  - rewrite elem_of_cons, list_elem_of_fmap. split.
    + intros [[= -> ->]|([x' r'] & [= -> ->] & H)].
      * exists [], l. split; reflexivity.
      * apply IH in H as (l1 & l2 & -> & ->). exists (y :: l1), l2. split; reflexivity.
    + intros (l1 & l2 & E & ->). destruct l1 as [|z l1].
      * injection E as -> ->. left. reflexivity.
      * injection E as -> ->. right. exists (x, l1 ++ l2). split; [reflexivity|].
        apply IH. exists l1, l2. split; reflexivity.
Qed.

Lemma elem_of_permutations_from {A} (r : nat) (l o : list A) :
  length l = r → o ∈ permutations_from r l ↔ o ≡ₚ l.
Proof.
  revert l o. induction r as [|r IH]; intros l o Hl; cbn [permutations_from].
  - apply length_zero_iff_nil in Hl as ->. rewrite list_elem_of_singleton. split.
    + intros ->. reflexivity.
    + apply Permutation_nil_r.
  - rewrite flat_map_bind, list_elem_of_bind. split.
    + intros ([x rest] & Ho & Hp). apply list_elem_of_fmap in Ho as (o' & -> & Ho').
      apply elem_of_picks in Hp as (l1 & l2 & -> & ->).
      apply IH in Ho'; [|rewrite length_app in *; cbn in Hl; lia].
      rewrite Ho'. apply Permutation_middle.
    + intros Hperm. destruct o as [|x o'].
      { apply Permutation_length in Hperm. cbn in Hperm. lia. }
      assert (Hx : x ∈ l) by (rewrite <- Hperm; left).
      apply list_elem_of_split in Hx as (l1 & l2 & ->).
      exists (x, l1 ++ l2). split.
      * apply list_elem_of_fmap. exists o'. split; [reflexivity|].
        apply IH; [rewrite length_app in *; cbn in Hl; lia|].
        apply (Permutation_cons_app_inv _ _ Hperm).
      * apply elem_of_picks. exists l1, l2. split; reflexivity.
Qed.

Lemma elem_of_permutations {A} (l o : list A) : o ∈ permutations l ↔ o ≡ₚ l.
Proof. apply elem_of_permutations_from. reflexivity. Qed.

(** ** [all_orientations] *)

Lemma dyck_bound p (r : nat) k :
  dyck p = true → p !! r = Some k → 0 ≤ k ≤ len p - 1 - Z.of_nat r.
Proof.
  revert r k. induction p as [|h tail IH]; intros r k Hd Hk; [discriminate|].
  apply dyck_cons in Hd as (Hh & Ht & Hd). rewrite len_cons.
  destruct r as [|r].
  - injection Hk as <-. destruct tail as [|t0 l].
    + subst h. unfold len. simpl. lia.
    + specialize (IH 0%nat t0 Hd eq_refl). lia.
  - specialize (IH r k Hd Hk). lia.
Qed.

Lemma boxes_in_range p i j :
  dyck p = true → (i, j) ∈ _boxes_under_path p → 0 ≤ i < j ∧ j < len p.
Proof.
  intros Hd Hb. apply elem_of_boxes in Hb as (k & Hi & Hk & Hj).
  pose proof (dyck_bound p _ k Hd Hk). lia.
Qed.

Lemma py_index_rank (ordering : list Z) i :
  0 ≤ i < len ordering → py_index ordering i = Ok (rank ordering i).
Proof.
  intros Hi. apply py_index_ok; [lia|].
  apply list_lookup_lookup_total_lt. unfold len in Hi. lia.
Qed.

Lemma classify_from (ordering : list Z) (boxes : list (Z * Z))
    (ascents descents : gset (Z * Z)) :
  (∀ i j, (i, j) ∈ boxes → 0 ≤ i < len ordering ∧ 0 ≤ j < len ordering) →
  py_for (λ '(ascents, descents) '(i, j),
            oi ← py_index ordering i;
            oj ← py_index ordering j;
            if oi <? oj then Ok ({[ (i, j) ]} ∪ ascents, descents)
            else Ok (ascents, {[ (i, j) ]} ∪ descents))
         (ascents, descents) boxes
  = Ok (list_to_set (filter (λ b, rank ordering b.1 < rank ordering b.2) boxes) ∪ ascents,
        list_to_set (filter (λ b, ¬ rank ordering b.1 < rank ordering b.2) boxes) ∪ descents).
Proof.
  revert ascents descents. induction boxes as [|[i j] boxes IH]; intros ascents descents Hin.
  - cbn. rewrite !(left_id_L ∅ (∪)). reflexivity.
  - cbn [py_for]. destruct (Hin i j) as [Hi Hj]; [left|].
    rewrite !py_index_rank by assumption. cbn [mbind result_bind].
    rewrite !filter_cons. cbn [fst snd].
    destruct (Z.ltb_spec (rank ordering i) (rank ordering j)) as [Hlt|Hge].
    + cbn [mbind result_bind].
      rewrite IH by (intros; apply Hin; right; assumption).
      rewrite decide_True by exact Hlt. rewrite decide_False by tauto.
      cbn [list_to_set]. f_equal. f_equal.
      apply set_eq. intros b. rewrite !elem_of_union. tauto.
    + cbn [mbind result_bind].
      rewrite IH by (intros; apply Hin; right; assumption).
      rewrite decide_False by lia. rewrite decide_True by lia.
      cbn [list_to_set]. f_equal. f_equal.
      apply set_eq. intros b. rewrite !elem_of_union. tauto.
Qed.

Lemma list_to_set_filter_elements (P : Z * Z → Prop) `{!∀ b, Decision (P b)}
    (boxes : gset (Z * Z)) :
  list_to_set (filter P (elements boxes)) = filter P boxes.
Proof.
  apply set_eq. intros b.
  rewrite elem_of_list_to_set, list_elem_of_filter, elem_of_elements, elem_of_filter.
  reflexivity.
Qed.

Lemma classify_ok (ordering : list Z) (boxes : gset (Z * Z)) n :
  (∀ i j, (i, j) ∈ boxes → 0 ≤ i < len ordering ∧ 0 ≤ j < len ordering) →
  classify ordering (elements boxes) =
    Ok ((oriented n boxes ordering).1.2, (oriented n boxes ordering).2).
Proof.
  intros Hin. unfold classify. rewrite classify_from.
  - rewrite !list_to_set_filter_elements, !(right_id_L ∅ (∪)). reflexivity.
  - intros i j Hb. apply Hin. apply elem_of_elements. exact Hb.
Qed.

Lemma py_for_returns {A S} (body : S → A → memo S) (g : S → A → S) l s :
  (∀ s x, x ∈ l → returns (body s x) (g s x)) →
  returns (py_for body s l) (foldl g s l).
Proof.
  revert s. induction l as [|x l IH]; intros s Hbody; cbn [py_for foldl].
  - apply returns_ret.
  - eapply returns_bind; [apply Hbody; left|].
    apply IH. intros s' y Hy. apply Hbody. right. exact Hy.
Qed.

Lemma foldl_add_set {A B} `{Countable B} (g : A → B) (l : list A) (s : gset B) :
  foldl (λ s x, {[ g x ]} ∪ s) s l = list_to_set (g <$> l) ∪ s.
Proof.
  revert s. induction l as [|x l IH]; intros s; cbn [foldl fmap list_fmap list_to_set].
  - rewrite (left_id_L ∅ (∪)). reflexivity.
  - rewrite IH. apply set_eq. intros b. rewrite !elem_of_union. tauto.
Qed.

Lemma length_permutation_range n o : o ≡ₚ range 0 n → len o = Z.max 0 n.
Proof.
  intros Ho. unfold len. rewrite (Permutation_length Ho).
  fold (len (range 0 n)). rewrite length_range. lia.
Qed.

Lemma all_orientations_returns p :
  dyck p = true →
  returns (all_orientations p)
          (list_to_set (oriented (len p) (_boxes_under_path p)
                          <$> permutations (range 0 (len p)))).
Proof.
  intros Hd. unfold all_orientations.
  rewrite <- (right_id_L ∅ (∪) (list_to_set _)).
  rewrite <- foldl_add_set. apply py_for_returns.
  intros s o Ho. apply elem_of_permutations, length_permutation_range in Ho.
  pose proof (len_nonneg p).
  eapply returns_bind; [apply boxes_under_path_returns|].
  rewrite (classify_ok _ _ (len p)).
  - eapply returns_bind; [apply returns_lift|]. apply returns_ret.
  - intros i j Hb. apply (boxes_in_range _ _ _ Hd) in Hb. lia.
Qed.

(** ** The path under an orientation *)

Lemma length_add_rows boxes path : length (add_rows boxes path) = length path.
Proof.
  revert path. induction boxes as [|b boxes IH]; intros path; [reflexivity|].
  unfold add_rows in *. cbn [foldl]. rewrite IH. apply length_alter.
Qed.

Lemma count_rows_from (boxes : list (Z * Z)) (path : list Z) :
  (∀ i j, (i, j) ∈ boxes → 0 ≤ i < len path) →
  py_for (λ path '(i, j), x ← py_index path i; py_setitem path i (x + 1))
         path boxes = Ok (add_rows boxes path).
Proof.
  revert path. induction boxes as [|[i j] boxes IH]; intros path Hin; [reflexivity|].
  cbn [py_for]. assert (Hi : 0 ≤ i < len path) by (apply (Hin i j); left).
  destruct (lookup_lt_is_Some_2 path (Z.to_nat i)) as [x Hx]; [unfold len in Hi; lia|].
  rewrite (py_index_ok _ _ x) by (lia || exact Hx).
  cbn [mbind result_bind]. unfold py_setitem. rewrite py_slot_ok by exact Hi.
  cbn [mbind result_bind].
  replace (<[Z.to_nat i := x + 1]> path) with (alter (λ x, x + 1) (Z.to_nat i) path).
  - rewrite IH; [reflexivity|]. intros i' j' Hb.
    unfold len. rewrite length_alter. apply (Hin i' j'). right. exact Hb.
  - apply list_eq. intros r. destruct (decide (r = Z.to_nat i)) as [->|Hne].
    + rewrite list_lookup_alter_eq, Hx, list_lookup_insert_eq; [reflexivity|].
      unfold len in Hi. lia.
    + rewrite list_lookup_alter_ne, list_lookup_insert_ne by congruence. reflexivity.
Qed.

Lemma count_rows_length boxes path path' :
  count_rows boxes path = Ok path' → length path' = length path.
Proof.
  unfold count_rows. generalize (elements boxes) as l. intros l. revert path.
  induction l as [|[i j] l IH]; intros path; cbn [py_for].
  - intros [= ->]. reflexivity.
  - unfold py_index, py_setitem.
    destruct (py_slot path i) as [k|e] eqn:Ek; [|discriminate].
    cbn [mbind result_bind].
    destruct (path !! k) as [x|]; [|discriminate].
    cbn [mbind result_bind].
    intros H. apply IH in H. rewrite length_insert in H. exact H.
Qed.

Lemma underlying_path_length n ascents descents path :
  underlying_path n ascents descents = Ok path → length path = Z.to_nat n.
Proof.
  unfold underlying_path.
  destruct (count_rows ascents _) as [path0|e] eqn:E0; [|discriminate].
  cbn [mbind result_bind]. intros E1.
  apply count_rows_length in E0, E1. rewrite length_replicate in E0. congruence.
Qed.

Lemma add_rows_lookup boxes path r :
  add_rows boxes path !! r =
    (λ x, x + Z.of_nat (row_count r boxes)) <$> path !! r.
Proof.
  revert path. induction boxes as [|b boxes IH]; intros path.
  - cbn. destruct (path !! r) as [x|]; cbn; [f_equal; lia|reflexivity].
  - unfold add_rows in *. cbn [foldl]. rewrite IH. unfold row_count.
    rewrite filter_cons. destruct (decide (Z.to_nat b.1 = r)) as [->|Hne].
    + rewrite list_lookup_alter_eq. destruct (path !! _) as [x|]; cbn; [f_equal; lia|reflexivity].
    + rewrite list_lookup_alter_ne by exact Hne. reflexivity.
Qed.

Lemma add_rows_app l k path : add_rows k (add_rows l path) = add_rows (l ++ k) path.
Proof. unfold add_rows. rewrite foldl_app. reflexivity. Qed.

Lemma row_count_app r l k : row_count r (l ++ k) = (row_count r l + row_count r k)%nat.
Proof. unfold row_count. rewrite filter_app, length_app. reflexivity. Qed.

Lemma row_count_perm r l k : l ≡ₚ k → row_count r l = row_count r k.
Proof. intros Hp. unfold row_count. rewrite Hp. reflexivity. Qed.

Lemma row_count_row r a (l : list Z) :
  row_count r (map (λ j, (a, j)) l) = if decide (Z.to_nat a = r) then length l else 0%nat.
Proof.
  unfold row_count. induction l as [|j l IH]; cbn [map].
  - destruct (decide _); reflexivity.
  - rewrite filter_cons. cbn [fst]. destruct (decide (Z.to_nat a = r)); cbn [length]; lia.
Qed.

Lemma row_count_box_list r a p :
  0 ≤ a → Forall (λ k, 0 ≤ k) p →
  row_count r (box_list a p) =
    if decide (Z.to_nat a ≤ r)%nat
    then Z.to_nat (default 0 (p !! (r - Z.to_nat a)%nat))
    else 0%nat.
Proof.
  intros Ha Hpos. revert a Ha. induction Hpos as [|k p Hk _ IH]; intros a Ha.
  - rewrite box_list_nil. destruct (decide _); reflexivity.
  - rewrite box_list_cons, row_count_app, row_count_row, IH by lia.
    pose proof (length_range (a + 1) (a + 1 + k)) as Hl. unfold len in Hl.
    destruct (decide (Z.to_nat a = r)) as [<-|Hne].
    + rewrite decide_False, decide_True by lia. rewrite Nat.sub_diag. cbn. lia.
    + destruct (decide (Z.to_nat a ≤ r)%nat) as [Hle|Hgt].
      * rewrite decide_True by lia.
        replace (r - Z.to_nat a)%nat with (S (r - Z.to_nat (a + 1))) by lia.
        reflexivity.
      * rewrite decide_False by lia. reflexivity.
Qed.

Lemma elements_boxes p : elements (_boxes_under_path p) ≡ₚ box_list 0 p.
Proof. rewrite boxes_box_list. apply elements_list_to_set, NoDup_box_list. Qed.

(** The path counted back from a partition of the boxes of a Dyck path is
    that path. *)
Lemma underlying_path_boxes (p : list Z) (ascents descents : gset (Z * Z)) :
  dyck p = true → ascents ## descents →
  ascents ∪ descents = _boxes_under_path p →
  underlying_path (len p) ascents descents = Ok p.
Proof.
  intros Hd Hdisj Hcover. unfold underlying_path, count_rows, len.
  rewrite Nat2Z.id.
  assert (Hin : ∀ i j, (i, j) ∈ ascents ∪ descents → 0 ≤ i < len p).
  { intros i j Hb. rewrite Hcover in Hb. apply (boxes_in_range _ _ _ Hd) in Hb. lia. }
  rewrite count_rows_from.
  2:{ intros i j Hb. unfold len. rewrite length_replicate. fold (len p).
      apply (Hin i j), elem_of_union. left. apply elem_of_elements, Hb. }
  cbn [mbind result_bind]. rewrite count_rows_from.
  2:{ intros i j Hb. unfold len. rewrite length_add_rows, length_replicate. fold (len p).
      apply (Hin i j), elem_of_union. right. apply elem_of_elements, Hb. }
  f_equal. rewrite add_rows_app.
  apply list_eq. intros r. rewrite add_rows_lookup.
  rewrite (row_count_perm r _ (box_list 0 p)).
  2:{ rewrite <- elements_disj_union by exact Hdisj. rewrite Hcover. apply elements_boxes. }
  rewrite row_count_box_list by (lia || apply dyck_nonneg, Hd).
  rewrite decide_True by lia. change (Z.to_nat 0) with 0%nat. rewrite Nat.sub_0_r.
  destruct (p !! r) as [k|] eqn:Hk.
  - rewrite lookup_replicate_2 by (apply lookup_lt_Some in Hk; exact Hk).
    cbn. f_equal. pose proof (dyck_bound p r k Hd Hk). lia.
  - rewrite (proj1 (lookup_replicate_None _ _ _)); [reflexivity|]. apply lookup_ge_None. exact Hk.
Qed.

(** ** [is_orientation] *)

Lemma is_orientation_val (ao : orientation) :
  returns (is_orientation (orientation_val ao)) (orientation_ok ao).
Proof.
  destruct ao as [[n ascents] descents].
  unfold orientation_ok. cbn [orientation_val is_orientation].
  destruct (underlying_path n ascents descents) as [path|e].
  2:{ destruct e; apply returns_ret. }
  rewrite is_dyck_path_tuple.
  eapply returns_bind; [apply returns_lift|].
  destruct (dyck path); cbn [negb andb]; [|apply returns_ret].
  destruct (bool_decide (ascents ## descents)); cbn [negb andb]; [|apply returns_ret].
  eapply returns_bind; [apply boxes_under_path_returns|].
  destruct (bool_decide (ascents ∪ descents = _boxes_under_path path));
    cbn [negb andb]; apply returns_ret.
Qed.

Lemma is_orientation_total (v : pyval) : ∃ b, returns (is_orientation v) b.
Proof.
  destruct v as [| items | | | |]; try (exists false; apply returns_ret).
  destruct items as [|x1 [|x2 [|x3 [|x4 rest]]]];
    try solve [exists false;
               repeat first [apply returns_ret
                            |match goal with x : pyval |- _ => destruct x end]].
  destruct x1 as [n| | | | |]; try (exists false; apply returns_ret).
  destruct x2 as [| | |ascents| |]; try (exists false; apply returns_ret).
  destruct x3 as [| | |descents| |]; try (exists false; apply returns_ret).
  exists (orientation_ok (n, ascents, descents)).
  apply (is_orientation_val (n, ascents, descents)).
Qed.



Lemma orientation_ok_true (n : Z) (ascents descents : gset (Z * Z)) :
  orientation_ok (n, ascents, descents) = true ↔
    ∃ path, underlying_path n ascents descents = Ok path
      ∧ dyck path = true
      ∧ ascents ## descents
      ∧ ascents ∪ descents = _boxes_under_path path
      ∧ ∀ i j k, 0 ≤ i < j → j < k < n →
          ¬ ((i, j) ∈ ascents ∧ (j, k) ∈ ascents ∧ (i, k) ∈ descents)
          ∧ ¬ ((i, j) ∈ descents ∧ (j, k) ∈ descents ∧ (i, k) ∈ ascents).
Proof.
  unfold orientation_ok.
  destruct (underlying_path n ascents descents) as [path|e].
  2:{ split; [discriminate|]. intros (path & E & _). discriminate. }
  rewrite !andb_true_iff, !bool_decide_eq_true, no_3_cycle_spec. split.
  - intros (((Hd & Hdisj) & Hcover) & Hcyc). exists path.
    repeat (split; [reflexivity || assumption|]).
    intros i j k Hij Hjk. apply is_3_cycle_false, Hcyc.
    apply elem_of_combinations3_range. lia.
  - intros (path' & [= <-] & Hd & Hdisj & Hcover & Hcyc).
    repeat (split; [assumption|]) || split; try assumption.
    intros [[i j] k] Ht. apply elem_of_combinations3_range in Ht.
    apply is_3_cycle_false, Hcyc; lia.
Qed.



(** ** [is_orientation] within the limits of the interpreter *)

Lemma is_orientation_sized_fits (L : limits) (n : Z) (ascents descents : gset (Z * Z)) :
  is_int L n = true → n ≤ Z.of_N (capacity L) →
  is_orientation_sized L (orientation_val (n, ascents, descents))
  = Fits (is_orientation (orientation_val (n, ascents, descents))).
Proof.
  intros Hint Hn. cbn [orientation_val is_orientation_sized]. rewrite Hint. cbn [negb].
  unfold zeros. destruct (Z.ltb_spec (Z.of_N (capacity L)) n); [lia|]. reflexivity.
Qed.







(** ** Soundness of [all_orientations] *)

Lemma oriented_disjoint (boxes : gset (Z * Z)) (ordering : list Z) :
  filter (λ b, rank ordering b.1 < rank ordering b.2) boxes
    ## filter (λ b, ¬ rank ordering b.1 < rank ordering b.2) boxes.
Proof.
  apply elem_of_disjoint. intros b H1 H2.
  apply elem_of_filter in H1 as [H1 _]. apply elem_of_filter in H2 as [H2 _]. tauto.
Qed.

Lemma oriented_cover (boxes : gset (Z * Z)) (ordering : list Z) :
  filter (λ b, rank ordering b.1 < rank ordering b.2) boxes
    ∪ filter (λ b, ¬ rank ordering b.1 < rank ordering b.2) boxes = boxes.
Proof.
  apply set_eq. intros b. rewrite elem_of_union, !elem_of_filter.
  destruct (decide (rank ordering b.1 < rank ordering b.2)); tauto.
Qed.

Lemma elem_of_orientations (n : Z) (boxes : gset (Z * Z)) (ao : orientation) :
  ao ∈ (list_to_set (oriented n boxes <$> permutations (range 0 n)) : gset orientation) ↔
    ∃ ordering, ordering ≡ₚ range 0 n ∧ ao = oriented n boxes ordering.
Proof.
  rewrite elem_of_list_to_set, list_elem_of_fmap. split.
  - intros (o & -> & Ho). exists o. split; [apply elem_of_permutations, Ho|reflexivity].
  - intros (o & Ho & ->). exists o. split; [reflexivity|apply elem_of_permutations, Ho].
Qed.

Lemma oriented_ok (p ordering : list Z) :
  dyck p = true →
  orientation_ok (oriented (len p) (_boxes_under_path p) ordering) = true.
Proof.
  intros Hd. apply orientation_ok_true. exists p.
  split; [apply underlying_path_boxes;
          [exact Hd|apply oriented_disjoint|apply oriented_cover]|].
  split; [exact Hd|]. split; [apply oriented_disjoint|].
  split; [apply oriented_cover|].
  intros i j k _ _. rewrite !elem_of_filter. cbn [fst snd]. split; lia.
Qed.

(** C1: every triple in the set [all_orientations(p)] returns for a valid
    Dyck path [p] passes [is_orientation]. *)
Theorem all_orientations_sound (p : list Z) :
  is_dyck_path (tuple_of p) = Ok true →
  ∃ orientations, returns (all_orientations p) orientations
    ∧ ∀ ao, ao ∈ orientations → returns (is_orientation (orientation_val ao)) true.
Proof.
  rewrite is_dyck_path_tuple, Ok_eq. intros Hd.
  eexists. split; [apply all_orientations_returns, Hd|].
  intros ao Hao. apply elem_of_orientations in Hao as (o & _ & ->).
  rewrite <- (oriented_ok p o Hd). apply is_orientation_val.
Qed.

Lemma all_orientations_sound_witness :
  ∃ orientations, returns (all_orientations [1; 2; 1; 0]) orientations
    ∧ ∀ ao, ao ∈ orientations → returns (is_orientation (orientation_val ao)) true.
Proof. apply (all_orientations_sound [1; 2; 1; 0]). reflexivity. Defined.

(** C9: for a valid Dyck path [p], every triple [(n, asc, desc)] of
    [all_orientations(p)] has [n = len(p)], [asc] and [desc] disjoint with
    union [boxes_under_path(p)], and the path counted back from the boxes,
    as [is_orientation] does, is [p]. *)
Theorem all_orientations_round_trip (p : list Z) :
  is_dyck_path (tuple_of p) = Ok true →
  ∃ orientations, returns (all_orientations p) orientations
    ∧ ∀ (n : Z) (ascents descents : gset (Z * Z)),
        (n, ascents, descents) ∈ orientations →
        n = len p
        ∧ ascents ## descents
        ∧ returns (boxes_under_path p) (ascents ∪ descents)
        ∧ underlying_path n ascents descents = Ok p.
Proof.
  rewrite is_dyck_path_tuple, Ok_eq. intros Hd.
  eexists. split; [apply all_orientations_returns, Hd|].
  intros n ascents descents Hao.
  apply elem_of_orientations in Hao as (o & _ & [= -> -> ->]).
  split; [reflexivity|]. split; [apply oriented_disjoint|].
  split; [rewrite oriented_cover; apply boxes_under_path_returns|].
  apply underlying_path_boxes; [exact Hd|apply oriented_disjoint|apply oriented_cover].
Qed.

Lemma all_orientations_round_trip_witness :
  ∃ orientations, returns (all_orientations [2; 1; 0]) orientations
    ∧ ∀ (n : Z) (ascents descents : gset (Z * Z)),
        (n, ascents, descents) ∈ orientations →
        n = len [2; 1; 0]
        ∧ ascents ## descents
        ∧ returns (boxes_under_path [2; 1; 0]) (ascents ∪ descents)
        ∧ underlying_path n ascents descents = Ok [2; 1; 0].
Proof. apply (all_orientations_round_trip [2; 1; 0]). reflexivity. Defined.

(** ** Checking 3-cycles is enough *)

(** *** The shape of the boxes of a Dyck path *)

Lemma dyck_reach q (r : nat) k t0 :
  dyck q = true → q !! 0%nat = Some t0 → q !! r = Some k → t0 ≤ Z.of_nat r + k.
Proof.
  revert r k t0. induction q as [|x q IH]; intros r k t0 Hd H0 Hr; [discriminate|].
  injection H0 as ->. destruct r as [|r]; [injection Hr as ->; lia|].
  apply dyck_cons in Hd as (_ & Hx & Hd).
  destruct q as [|y q]; [discriminate|].
  specialize (IH r k y Hd eq_refl Hr). lia.
Qed.

Lemma dyck_reach_mono p (i j : nat) a b :
  dyck p = true → p !! i = Some a → p !! j = Some b → (i ≤ j)%nat →
  Z.of_nat i + a ≤ Z.of_nat j + b.
Proof.
  revert i j. induction p as [|x p IH]; intros i j Hd Hi Hj Hij; [discriminate|].
  destruct i as [|i].
  - pose proof (dyck_reach _ _ _ _ Hd Hi Hj). lia.
  - destruct j as [|j]; [lia|].
    apply dyck_cons in Hd as (_ & _ & Hd).
    specialize (IH i j Hd Hi Hj). lia.
Qed.

Lemma box_triangle p i j k :
  dyck p = true → (i, k) ∈ _boxes_under_path p → i < j < k →
  (i, j) ∈ _boxes_under_path p ∧ (j, k) ∈ _boxes_under_path p.
Proof.
  intros Hd Hik Hj. pose proof (boxes_in_range _ _ _ Hd Hik) as Hr.
  apply elem_of_boxes in Hik as (a & Hi & Ha & Hk).
  destruct (lookup_lt_is_Some_2 p (Z.to_nat j)) as [b Hb]; [unfold len in Hr; lia|].
  split; apply elem_of_boxes.
  - exists a. split; [exact Hi|]. split; [exact Ha|lia].
  - exists b. split; [lia|]. split; [exact Hb|].
    pose proof (dyck_reach_mono p _ _ a b Hd Ha Hb). lia.
Qed.

Lemma boxes_cons h tail i j :
  (i, j) ∈ _boxes_under_path (h :: tail) ↔
    (i = 0 ∧ 1 ≤ j ≤ h) ∨ (1 ≤ i ∧ (i - 1, j - 1) ∈ _boxes_under_path tail).
Proof.
  rewrite !elem_of_boxes. split.
  - intros (k & Hi & Hk & Hj). destruct (decide (i = 0)) as [->|Hne].
    + injection Hk as ->. left. lia.
    + right. split; [lia|]. exists k. split; [lia|]. split; [|lia].
      replace (Z.to_nat i) with (S (Z.to_nat (i - 1))) in Hk by lia. exact Hk.
  - intros [[-> Hj]|(Hi & k & _ & Hk & Hj)].
    + exists h. split; [lia|]. split; [reflexivity|lia].
    + exists k. split; [lia|]. split; [|lia].
      replace (Z.to_nat i) with (S (Z.to_nat (i - 1))) by lia. exact Hk.
Qed.

(** *** Ranks *)

Lemma rank_cons_0 t l : rank (t :: l) 0 = t.
Proof. reflexivity. Qed.

Lemma rank_cons_pos t l i : 1 ≤ i → rank (t :: l) i = rank l (i - 1).
Proof.
  intros Hi. unfold rank.
  replace (Z.to_nat i) with (S (Z.to_nat (i - 1))) by lia. reflexivity.
Qed.

Lemma rank_lookup l i : 0 ≤ i < len l → l !! Z.to_nat i = Some (rank l i).
Proof. intros Hi. apply list_lookup_lookup_total_lt. unfold len in Hi. lia. Qed.

Lemma rank_map (f : Z → Z) l i : 0 ≤ i < len l → rank (map f l) i = f (rank l i).
Proof.
  intros Hi. unfold rank. apply list_lookup_total_correct.
  change (map f l) with (f <$> l).
  rewrite list_lookup_fmap, (rank_lookup l i Hi). reflexivity.
Qed.

Lemma rank_elem l i : 0 ≤ i < len l → rank l i ∈ l.
Proof. intros Hi. apply list_elem_of_lookup. eexists. apply rank_lookup, Hi. Qed.

Lemma rank_inj l i j :
  NoDup l → 0 ≤ i < len l → 0 ≤ j < len l → rank l i = rank l j → i = j.
Proof.
  intros Hnd Hi Hj E.
  pose proof (rank_lookup l i Hi) as Li. pose proof (rank_lookup l j Hj) as Lj.
  rewrite E in Li. pose proof (NoDup_lookup _ _ _ _ Hnd Li Lj). lia.
Qed.

Lemma bump_lt t r s : r < s ↔ bump t r < bump t s.
Proof.
  unfold bump. destruct (Z.ltb_spec r t), (Z.ltb_spec s t); lia.
Qed.

Lemma range_app a b c : a ≤ b ≤ c → range a c = range a b ++ range b c.
Proof.
  intros H. unfold range.
  replace (c - a) with ((b - a) + (c - b)) by lia.
  rewrite seqZ_app by lia. f_equal. f_equal. lia.
Qed.

Lemma map_range (f : Z → Z) a b d :
  (∀ x, a ≤ x < b → f x = x + d) → map f (range a b) = range (a + d) (b + d).
Proof.
  remember (Z.to_nat (b - a)) as m eqn:Hm. revert a Hm.
  induction m as [|m IH]; intros a Hm Hf.
  - rewrite !range_empty by lia. reflexivity.
  - rewrite (range_cons a b), (range_cons (a + d)) by lia. cbn [map].
    rewrite Hf by lia. f_equal.
    replace (a + d + 1) with (a + 1 + d) by lia.
    apply IH; [lia|]. intros x Hx. apply Hf. lia.
Qed.

Lemma bump_range t m :
  0 ≤ t ≤ m → t :: map (bump t) (range 0 m) ≡ₚ range 0 (m + 1).
Proof.
  intros Ht. rewrite (range_app 0 t m), (range_app 0 t (m + 1)) by lia.
  rewrite (range_cons t (m + 1)) by lia. rewrite map_app.
  rewrite (map_range (bump t) 0 t 0).
  2:{ intros x Hx. unfold bump. destruct (Z.ltb_spec x t); lia. }
  rewrite (map_range (bump t) t m 1).
  2:{ intros x Hx. unfold bump. destruct (Z.ltb_spec x t); lia. }
  rewrite !Z.add_0_r. apply Permutation_middle.
Qed.

Lemma foldr_max_nonneg l : 0 ≤ foldr Z.max 0 l.
Proof. induction l as [|x l IH]; cbn [foldr]; lia. Qed.

Lemma foldr_max_ge l x : x ∈ l → x ≤ foldr Z.max 0 l.
Proof.
  induction l as [|y l IH]; intros Hx; [inversion Hx|].
  cbn [foldr]. apply elem_of_cons in Hx as [->|Hx]; [lia|].
  specialize (IH Hx). lia.
Qed.

Lemma foldr_max_elem l : foldr Z.max 0 l = 0 ∨ foldr Z.max 0 l ∈ l.
Proof.
  induction l as [|y l IH]; [left; reflexivity|]. cbn [foldr].
  destruct (Z.max_spec y (foldr Z.max 0 l)) as [[_ ->]|[_ ->]].
  - destruct IH as [IH|IH]; [left; exact IH|right; right; exact IH].
  - right. left.
Qed.

(** *** A total ordering for every partition without 3-cycle

    [asc i j] tells whether the box [(i, j)] ascends.  The first row is
    ranked just above its descending neighbours; these come before its
    ascending neighbours in the ordering of the other rows because the
    neighbours of the first row are pairwise joined by a box. *)

Lemma threshold_above (descends : Z → bool) (ordering : list Z) h d :
  1 ≤ d ≤ h → descends d = true →
  rank ordering (d - 1) < threshold descends ordering h.
Proof.
  intros Hd Hdesc. unfold threshold.
  assert (rank ordering (d - 1) + 1 ≤
          foldr Z.max 0 ((λ j, rank ordering (j - 1) + 1)
                           <$> filter (λ j, descends j = true) (range 1 (h + 1)))); [|lia].
  apply foldr_max_ge, list_elem_of_fmap. exists d. split; [reflexivity|].
  apply list_elem_of_filter. split; [exact Hdesc|]. apply elem_of_range. lia.
Qed.

Lemma threshold_cases (descends : Z → bool) (ordering : list Z) h :
  threshold descends ordering h = 0
  ∨ ∃ d, 1 ≤ d ≤ h ∧ descends d = true
         ∧ threshold descends ordering h = rank ordering (d - 1) + 1.
Proof.
  unfold threshold.
  destruct (foldr_max_elem ((λ j, rank ordering (j - 1) + 1)
              <$> filter (λ j, descends j = true) (range 1 (h + 1)))) as [E|E];
    [left; exact E|right].
  apply list_elem_of_fmap in E as (d & E & Hd).
  apply list_elem_of_filter in Hd as [Hdesc Hd]. apply elem_of_range in Hd.
  exists d. split; [lia|]. split; [exact Hdesc|exact E].
Qed.

Lemma ordering_exists (p : list Z) (asc : Z → Z → bool) :
  dyck p = true →
  (∀ i j k,
     (i, j) ∈ _boxes_under_path p → (j, k) ∈ _boxes_under_path p →
     (i, k) ∈ _boxes_under_path p →
     ¬ (asc i j = true ∧ asc j k = true ∧ asc i k = false)
     ∧ ¬ (asc i j = false ∧ asc j k = false ∧ asc i k = true)) →
  ∃ ordering, ordering ≡ₚ range 0 (len p)
    ∧ ∀ i j, (i, j) ∈ _boxes_under_path p →
        (asc i j = true ↔ rank ordering i < rank ordering j).
Proof.
  revert asc. induction p as [|h tail IH]; intros asc Hd Hcyc.
  { exists []. split; [reflexivity|]. intros i j Hb.
    apply elem_of_boxes in Hb as (k & _ & Hk & _). discriminate. }
  pose proof Hd as Hd0. apply dyck_cons in Hd as (Hh & _ & Hdt).
  assert (Hup : ∀ i j, (i, j) ∈ _boxes_under_path tail →
                       (i + 1, j + 1) ∈ _boxes_under_path (h :: tail)).
  { intros i j Hb. apply boxes_cons. right.
    pose proof (boxes_in_range _ _ _ Hdt Hb). split; [lia|].
    replace (i + 1 - 1) with i by lia. replace (j + 1 - 1) with j by lia. exact Hb. }
  assert (Hdown : ∀ i j, 1 ≤ i → (i, j) ∈ _boxes_under_path (h :: tail) →
                         (i - 1, j - 1) ∈ _boxes_under_path tail).
  { intros i j Hi Hb. apply boxes_cons in Hb as [[-> _]|[_ Hb]]; [lia|exact Hb]. }
  destruct (IH (λ i j, asc (i + 1) (j + 1)) Hdt) as (o & Ho & Hrank).
  { intros i j k Hij Hjk Hik. apply Hcyc; apply Hup; assumption. }
  set (t := threshold (λ j, negb (asc 0 j)) o h).
  assert (Hlen : len o = len tail).
  { rewrite (length_permutation_range _ _ Ho). pose proof (len_nonneg tail). lia. }
  assert (Hnd : NoDup o) by (rewrite Ho; apply NoDup_range).
  assert (Hbound : ∀ i, 0 ≤ i < len tail → 0 ≤ rank o i < len tail).
  { intros i Hi. apply elem_of_range. rewrite <- Ho. apply rank_elem. lia. }
  assert (Hhlen : h ≤ len tail).
  { pose proof (dyck_bound (h :: tail) 0 h Hd0 eq_refl) as Hb.
    rewrite len_cons in Hb. lia. }
  assert (Hrow : ∀ j, 1 ≤ j ≤ h → (0, j) ∈ _boxes_under_path (h :: tail)).
  { intros j Hj. apply boxes_cons. left. lia. }
  assert (HD : ∀ d, 1 ≤ d ≤ h → asc 0 d = false → rank o (d - 1) < t).
  { intros d Hd1 Hdesc. apply threshold_above; [exact Hd1|]. rewrite Hdesc. reflexivity. }
  assert (HA : ∀ a, 1 ≤ a ≤ h → asc 0 a = true → t ≤ rank o (a - 1)).
  { intros a Ha Hasc.
    destruct (threshold_cases (λ j, negb (asc 0 j)) o h) as [E|(d & Hd1 & Hdesc & E)];
      fold t in E; rewrite E.
    { apply Hbound. lia. }
    apply negb_true_iff in Hdesc.
    assert (Hne : d ≠ a) by congruence.
    assert (rank o (d - 1) < rank o (a - 1)); [|lia].
    destruct (Z.lt_total d a) as [Hlt|[?|Hgt]]; [|congruence|].
    - destruct (box_triangle _ 0 d a Hd0 (Hrow a Ha)) as [H0d Hda]; [lia|].
      destruct (Hcyc 0 d a H0d Hda (Hrow a Ha)) as [_ Hc].
      apply (Hrank (d - 1) (a - 1)); [apply Hdown; [lia|exact Hda]|].
      replace (d - 1 + 1) with d by lia. replace (a - 1 + 1) with a by lia.
      destruct (asc d a); [reflexivity|tauto].
    - destruct (box_triangle _ 0 a d Hd0 (Hrow d Hd1)) as [H0a Had]; [lia|].
      destruct (Hcyc 0 a d H0a Had (Hrow d Hd1)) as [Hc _].
      assert (Hnlt : ¬ rank o (a - 1) < rank o (d - 1)).
      { intros Hlt. apply (Hrank (a - 1) (d - 1)) in Hlt; [|apply Hdown; [lia|exact Had]].
        replace (a - 1 + 1) with a in Hlt by lia.
        replace (d - 1 + 1) with d in Hlt by lia. tauto. }
      assert (rank o (a - 1) ≠ rank o (d - 1)); [|lia].
      intros Heq. apply rank_inj in Heq; [lia|exact Hnd|lia|lia]. }
  assert (Ht : 0 ≤ t ≤ len tail).
  { destruct (threshold_cases (λ j, negb (asc 0 j)) o h) as [E|(d & Hd1 & _ & E)];
      fold t in E; rewrite E; [pose proof (len_nonneg tail); lia|].
    pose proof (Hbound (d - 1)). lia. }
  exists (t :: map (bump t) o). split.
  - rewrite len_cons. rewrite <- (bump_range t (len tail) Ht).
    apply Permutation_cons; [reflexivity|]. apply Permutation_map. exact Ho.
  - intros i j Hb. pose proof (boxes_in_range _ _ _ Hd0 Hb) as Hr. rewrite len_cons in Hr.
    apply boxes_cons in Hb as [[-> Hj]|[Hi Hb]].
    + rewrite rank_cons_0, rank_cons_pos, rank_map by lia.
      unfold bump. destruct (asc 0 j) eqn:E.
      * specialize (HA j Hj E). destruct (Z.ltb_spec (rank o (j - 1)) t); [lia|].
        split; [lia|reflexivity].
      * specialize (HD j Hj E). destruct (Z.ltb_spec (rank o (j - 1)) t); [|lia].
        split; [discriminate|lia].
    + rewrite !rank_cons_pos, !rank_map by lia. rewrite <- bump_lt.
      specialize (Hrank (i - 1) (j - 1) Hb).
      replace (i - 1 + 1) with i in Hrank by lia.
      replace (j - 1 + 1) with j in Hrank by lia. exact Hrank.
Qed.

(** Every disjoint partition of the boxes of a Dyck path without 3-cycle
    is the orientation given by some total ordering of the rows. *)
Lemma partition_from_ordering (p : list Z) (ascents descents : gset (Z * Z)) :
  dyck p = true →
  ascents ## descents →
  ascents ∪ descents = _boxes_under_path p →
  no_3_cycle ascents descents (combinations3 (range 0 (len p))) = true →
  ∃ ordering, ordering ∈ permutations (range 0 (len p))
    ∧ (len p, ascents, descents) = oriented (len p) (_boxes_under_path p) ordering.
Proof.
  intros Hd Hdisj Hcover Hcyc.
  assert (Hdesc : ∀ b, b ∈ _boxes_under_path p → b ∈ descents ↔ b ∉ ascents).
  { intros b Hb. rewrite <- Hcover in Hb. apply elem_of_union in Hb.
    pose proof (proj1 (elem_of_disjoint _ _) Hdisj b). tauto. }
  destruct (ordering_exists p (λ i j, bool_decide ((i, j) ∈ ascents)) Hd)
    as (o & Ho & Hrank).
  { intros i j k Hij Hjk Hik.
    pose proof (boxes_in_range _ _ _ Hd Hij). pose proof (boxes_in_range _ _ _ Hd Hjk).
    assert (Hc : is_3_cycle ascents descents (i, j, k) = false).
    { apply (proj1 (no_3_cycle_spec _ _ _) Hcyc).
      apply elem_of_combinations3_range. lia. }
    apply is_3_cycle_false in Hc as [Hc1 Hc2].
    rewrite !bool_decide_eq_true, !bool_decide_eq_false.
    rewrite <- !Hdesc by assumption. tauto. }
  exists o. split; [apply elem_of_permutations, Ho|].
  unfold oriented. f_equal; [f_equal|]; apply set_eq; intros [i j];
    rewrite elem_of_filter; cbn [fst snd].
  - split.
    + intros Hb. assert (Hin : (i, j) ∈ _boxes_under_path p).
      { rewrite <- Hcover. apply elem_of_union. left. exact Hb. }
      split; [|exact Hin]. apply (Hrank i j Hin), bool_decide_eq_true, Hb.
    + intros [Hlt Hin]. apply (Hrank i j Hin), bool_decide_eq_true in Hlt. exact Hlt.
  - split.
    + intros Hb. assert (Hin : (i, j) ∈ _boxes_under_path p).
      { rewrite <- Hcover. apply elem_of_union. right. exact Hb. }
      split; [|exact Hin]. intros Hlt.
      apply (Hrank i j Hin), bool_decide_eq_true in Hlt.
      apply (Hdesc _ Hin) in Hb. tauto.
    + intros [Hnlt Hin]. apply (Hdesc _ Hin). intros Hb. apply Hnlt.
      apply (Hrank i j Hin), bool_decide_eq_true, Hb.
Qed.

(** For [n >= 0], the triples [(n, asc, desc)] that pass [is_orientation]
    with the valid Dyck path [p] under them are the members of
    [all_orientations(p)]: ruling out 3-cycles is enough. *)
Theorem three_cycles_suffice (p : list Z) (n : Z) (ascents descents : gset (Z * Z)) :
  is_dyck_path (tuple_of p) = Ok true →
  0 ≤ n →
  ∃ orientations, returns (all_orientations p) orientations
    ∧ ((n, ascents, descents) ∈ orientations ↔
         returns (is_orientation (orientation_val (n, ascents, descents))) true
         ∧ underlying_path n ascents descents = Ok p).
Proof.
  rewrite is_dyck_path_tuple, Ok_eq. intros Hd Hn.
  eexists. split; [apply all_orientations_returns, Hd|].
  rewrite elem_of_orientations. split.
  - intros (o & _ & [= -> -> ->]). split.
    + rewrite <- (oriented_ok p o Hd). apply is_orientation_val.
    + apply underlying_path_boxes; [exact Hd|apply oriented_disjoint|apply oriented_cover].
  - intros [Hret Hpath].
    pose proof (returns_inj _ _ _ Hret (is_orientation_val (n, ascents, descents))) as Hok.
    symmetry in Hok. apply orientation_ok_true in Hok as (path & E & _ & Hdisj & Hcover & _).
    rewrite Hpath in E. injection E as <-.
    assert (Hlen : n = len p).
    { apply underlying_path_length in Hpath. unfold len. lia. }
    subst n.
    destruct (partition_from_ordering p ascents descents Hd Hdisj Hcover)
      as (o & Ho & E).
    + pose proof (returns_inj _ _ _ Hret (is_orientation_val (len p, ascents, descents))) as Hok.
      symmetry in Hok. unfold orientation_ok in Hok. rewrite Hpath in Hok.
      apply andb_true_iff in Hok as [_ Hok]. exact Hok.
    + exists o. split; [apply elem_of_permutations, Ho|exact E].
Qed.

Lemma three_cycles_suffice_witness :
  ∃ orientations, returns (all_orientations [1; 1; 0]) orientations
    ∧ ((3, {[ (0, 1) ]}, {[ (1, 2) ]}) ∈ orientations ↔
         returns (is_orientation (orientation_val (3, {[ (0, 1) ]}, {[ (1, 2) ]}))) true
         ∧ underlying_path 3 {[ (0, 1) ]} {[ (1, 2) ]} = Ok [1; 1; 0]).
Proof. apply (three_cycles_suffice [1; 1; 0] 3); [reflexivity|lia]. Defined.

(** C2 at the triple [(-1, frozenset(), frozenset())] and the empty path:
    [is_orientation] returns true and the path counted back is [()], yet
    [all_orientations(())] holds the triple [(0, frozenset(), frozenset())]
    only. *)
Theorem is_orientation_negative_size :
  is_dyck_path (tuple_of []) = Ok true
  ∧ returns (is_orientation (orientation_val (-1, ∅, ∅))) true
  ∧ underlying_path (-1) ∅ ∅ = Ok []
  ∧ returns (all_orientations []) {[ (0, ∅, ∅) ]}
  ∧ (-1, ∅, ∅) ∉ ({[ (0, ∅, ∅) ]} : gset orientation).
Proof.
  split; [reflexivity|]. split; [|split; [reflexivity|split]].
  - change true with (orientation_ok (-1, ∅, ∅)). apply is_orientation_val.
  - replace ({[ (0, ∅, ∅) ]} : gset orientation)
      with (list_to_set (oriented (len (@nil Z)) (_boxes_under_path [])
                           <$> permutations (range 0 (len (@nil Z)))) : gset orientation).
    + apply all_orientations_returns. reflexivity.
    + change (permutations (range 0 (len (@nil Z)))) with [@nil Z].
      change (_boxes_under_path []) with (∅ : gset (Z * Z)).
      cbn [fmap list_fmap list_to_set]. unfold oriented.
      rewrite !filter_empty_L, (right_id_L ∅ (∪)); first [reflexivity|apply _].
  - intros H. apply elem_of_singleton in H. discriminate.
Qed.

(** ** The doctests of the source, run on the model *)

Example doctest_is_dyck_path :
  is_dyck_path (tuple_of [0; 0; 0]) = Ok true
  ∧ is_dyck_path (tuple_of [1; 0; 0]) = Ok true
  ∧ is_dyck_path (tuple_of [0; 1; 0]) = Ok true
  ∧ is_dyck_path (tuple_of [1; 1; 0]) = Ok true
  ∧ is_dyck_path (tuple_of [2; 1; 0]) = Ok true
  ∧ is_dyck_path (tuple_of [1; 2; 0]) = Ok false.
Proof. repeat split. Qed.

Example doctest_is_primitive :
  is_primitive [0; 0; 0] = Ok false
  ∧ is_primitive [1; 0; 0] = Ok false
  ∧ is_primitive [0; 1; 0] = Ok false
  ∧ is_primitive [1; 1; 0] = Ok true
  ∧ is_primitive [2; 1; 0] = Ok true.
Proof. repeat split. Qed.

Example doctest_all_dyck_paths :
  all_dyck_paths 3 false = Ok [[0; 0; 0]; [1; 0; 0]; [0; 1; 0]; [1; 1; 0]; [2; 1; 0]]
  ∧ all_dyck_paths 3 true = Ok [[1; 1; 0]; [2; 1; 0]].
Proof. split; vm_compute; reflexivity. Qed.

Example doctest_boxes_under_path :
  run (boxes_under_path [0; 0; 0]) = Ok ∅
  ∧ run (boxes_under_path [1; 0; 0]) = Ok {[ (0, 1) ]}
  ∧ run (boxes_under_path [0; 1; 0]) = Ok {[ (1, 2) ]}
  ∧ run (boxes_under_path [1; 1; 0]) = Ok {[ (0, 1); (1, 2) ]}
  ∧ run (boxes_under_path [2; 1; 0]) = Ok {[ (0, 1); (0, 2); (1, 2) ]}.
Proof. repeat split; vm_compute; reflexivity. Qed.

Example doctest_permutations :
  permutations [0; 1; 2]
  = [[0; 1; 2]; [0; 2; 1]; [1; 0; 2]; [1; 2; 0]; [2; 0; 1]; [2; 1; 0]].
Proof. reflexivity. Qed.

Example doctest_combinations :
  combinations3 (range 0 4) = [(0, 1, 2); (0, 1, 3); (0, 2, 3); (1, 2, 3)].
Proof. reflexivity. Qed.

Example doctest_all_orientations :
  size <$> result_option (run (all_orientations [1; 1; 1; 0])) = Some 8%nat
  ∧ size <$> result_option (run (all_orientations [3; 2; 1; 0])) = Some 24%nat.
Proof. split; vm_compute; reflexivity. Qed.

Example doctest_is_orientation :
  let path := [1; 3; 2; 2; 1; 0] in
  let all_boxes := _boxes_under_path path in
  let ascents : gset (Z * Z) := {[ (1, 4); (2, 3); (2, 4); (3, 4); (3, 5); (4, 5) ]} in
  let descents : gset (Z * Z) := {[ (0, 1); (1, 2); (1, 3) ]} in
  let pairs (s : gset (Z * Z)) := VList ((λ b, VTuple [VInt b.1; VInt b.2]) <$> elements s) in
  run (is_orientation (orientation_val (6, all_boxes, ∅))) = Ok true
  ∧ run (is_orientation (orientation_val (6, ∅, all_boxes))) = Ok true
  ∧ run (is_orientation (orientation_val (6, ascents, descents))) = Ok true
  ∧ run (is_orientation (VList [VInt 6; VFrozenset ascents; VFrozenset descents])) = Ok false
  ∧ run (is_orientation (VTuple [VFrozenset ascents; VFrozenset descents])) = Ok false
  ∧ run (is_orientation (VTuple [VFrozenset ascents; VFrozenset descents; VInt 6])) = Ok false
  ∧ run (is_orientation (VTuple [VInt 6; pairs ascents; pairs descents])) = Ok false
  ∧ run (is_orientation (orientation_val (5, ascents, descents))) = Ok false
  ∧ run (is_orientation (orientation_val (6, ascents, ∅))) = Ok false
  ∧ run (is_orientation (orientation_val (6, ascents, all_boxes))) = Ok false
  ∧ run (is_orientation (orientation_val (3, {[ (0, 1); (1, 2) ]}, {[ (0, 2) ]}))) = Ok false
  ∧ run (is_orientation (orientation_val (3, {[ (0, 2) ]}, {[ (0, 1); (1, 2) ]}))) = Ok false.
Proof. repeat split; vm_compute; reflexivity. Qed.

(** * Further properties of the code *)

(** ** The boxes of a valid path *)

(** The boxes of a valid Dyck path lie strictly above the diagonal of the
    [len(p)] by [len(p)] grid: [0 <= i < j < len(p)] for every box
    [(i, j)]. *)
Theorem boxes_within_grid (p : list Z) :
  is_dyck_path (tuple_of p) = Ok true →
  ∃ boxes, returns (boxes_under_path p) boxes
    ∧ ∀ i j, (i, j) ∈ boxes → 0 ≤ i < j ∧ j < len p.
Proof.
  rewrite is_dyck_path_tuple, Ok_eq. intros Hd.
  exists (_boxes_under_path p). split; [apply boxes_under_path_returns|].
  intros i j. apply boxes_in_range, Hd.
Qed.

Lemma boxes_within_grid_witness :
  ∃ boxes, returns (boxes_under_path [1; 2; 1; 0]) boxes
    ∧ ∀ i j, (i, j) ∈ boxes → 0 ≤ i < j ∧ j < len [1; 2; 1; 0].
Proof. apply (boxes_within_grid [1; 2; 1; 0]). reflexivity. Defined.

(** Under a valid Dyck path, the rows between the two rows of a box are
    joined to both by boxes: with [(i, k)] come [(i, j)] and [(j, k)] for
    every [i < j < k]. *)
Theorem boxes_between (p : list Z) :
  is_dyck_path (tuple_of p) = Ok true →
  ∃ boxes, returns (boxes_under_path p) boxes
    ∧ ∀ i j k, (i, k) ∈ boxes → i < j < k → (i, j) ∈ boxes ∧ (j, k) ∈ boxes.
Proof.
  rewrite is_dyck_path_tuple, Ok_eq. intros Hd.
  exists (_boxes_under_path p). split; [apply boxes_under_path_returns|].
  intros i j k. apply box_triangle, Hd.
Qed.

Lemma boxes_between_witness :
  ∃ boxes, returns (boxes_under_path [2; 2; 1; 0]) boxes
    ∧ ∀ i j k, (i, k) ∈ boxes → i < j < k → (i, j) ∈ boxes ∧ (j, k) ∈ boxes.
Proof. apply (boxes_between [2; 2; 1; 0]). reflexivity. Defined.

(** ** The cache of [boxes_under_path] *)

(** Whatever the cache holds, a call of [boxes_under_path(path)] returns
    a set without raising and leaves it stored under [path]; a second call
    returns the same set and leaves the cache as it is; and no entry under
    another key is added, changed or removed. *)
Theorem boxes_under_path_cached (path : list Z) (_cache : gmap (list Z) (gset (Z * Z))) :
  ∃ boxes _cache',
    boxes_under_path path _cache = (Ok boxes, _cache')
    ∧ _cache' !! path = Some boxes
    ∧ boxes_under_path path _cache' = (Ok boxes, _cache')
    ∧ ∀ other, other ≠ path → _cache' !! other = _cache !! other.
Proof.
  unfold boxes_under_path at 1.
  destruct (_cache !! path) as [cached|] eqn:E.
  - exists cached, _cache. split; [reflexivity|]. split; [exact E|].
    split; [|reflexivity]. unfold boxes_under_path. rewrite E. reflexivity.
  - exists (_boxes_under_path path), (<[path := _boxes_under_path path]> _cache).
    split; [reflexivity|]. split; [apply lookup_insert_eq|]. split.
    + unfold boxes_under_path. rewrite lookup_insert_eq. reflexivity.
    + intros other Hne. apply lookup_insert_ne. congruence.
Qed.

(** ** The tests of [is_orientation] *)

(** Anything but a tuple of an integer and two frozensets, in this order,
    is refused, and the cache is not consulted. *)
Theorem is_orientation_shape (v : pyval) (_cache : gmap (list Z) (gset (Z * Z))) :
  (∀ (n : Z) (ascents descents : gset (Z * Z)),
     v ≠ VTuple [VInt n; VFrozenset ascents; VFrozenset descents]) →
  is_orientation v _cache = (Ok false, _cache).
Proof.
  intros Hv.
  destruct v as [| items | | | |]; try reflexivity.
  destruct items as [|x1 [|x2 [|x3 [|x4 rest]]]];
    try solve [repeat first [reflexivity
                            |match goal with x : pyval |- _ => destruct x end]].
  destruct x1 as [n| | | | |]; try reflexivity.
  destruct x2 as [| | |ascents| |]; try reflexivity.
  destruct x3 as [| | |descents| |]; try reflexivity.
  exfalso. apply (Hv n ascents descents). reflexivity.
Qed.

Lemma is_orientation_shape_witness :
  is_orientation (VList [VInt 1; VFrozenset ∅; VFrozenset ∅]) ∅ = (Ok false, ∅)
  ∧ is_orientation (VTuple [VFrozenset ∅; VFrozenset ∅; VInt 1]) ∅ = (Ok false, ∅).
Proof.
  split; apply is_orientation_shape; intros n ascents descents; discriminate.
Defined.

(** For a valid Dyck path, the orientation with every box ascending and
    the one with every box descending pass [is_orientation]. *)
Theorem one_way_orientations (p : list Z) :
  is_dyck_path (tuple_of p) = Ok true →
  ∃ boxes, returns (boxes_under_path p) boxes
    ∧ returns (is_orientation (orientation_val (len p, boxes, ∅))) true
    ∧ returns (is_orientation (orientation_val (len p, ∅, boxes))) true.
Proof.
  rewrite is_dyck_path_tuple, Ok_eq. intros Hd.
  exists (_boxes_under_path p). split; [apply boxes_under_path_returns|].
  split.
  - replace true with (orientation_ok (len p, _boxes_under_path p, ∅));
      [apply is_orientation_val|].
    apply orientation_ok_true. exists p.
    assert (Hdisj : _boxes_under_path p ## (∅ : gset (Z * Z)))
      by (apply disjoint_empty_r).
    split; [apply underlying_path_boxes; [exact Hd|exact Hdisj|apply (right_id_L ∅ (∪))]|].
    split; [exact Hd|]. split; [exact Hdisj|]. split; [apply (right_id_L ∅ (∪))|].
    intros i j k _ _. rewrite !elem_of_empty. tauto.
  - replace true with (orientation_ok (len p, ∅, _boxes_under_path p));
      [apply is_orientation_val|].
    apply orientation_ok_true. exists p.
    assert (Hdisj : (∅ : gset (Z * Z)) ## _boxes_under_path p)
      by (apply disjoint_empty_l).
    split; [apply underlying_path_boxes; [exact Hd|exact Hdisj|apply (left_id_L ∅ (∪))]|].
    split; [exact Hd|]. split; [exact Hdisj|]. split; [apply (left_id_L ∅ (∪))|].
    intros i j k _ _. rewrite !elem_of_empty. tauto.
Qed.

Lemma one_way_orientations_witness :
  ∃ boxes, returns (boxes_under_path [1; 3; 2; 2; 1; 0]) boxes
    ∧ returns (is_orientation (orientation_val (len [1; 3; 2; 2; 1; 0], boxes, ∅))) true
    ∧ returns (is_orientation (orientation_val (len [1; 3; 2; 2; 1; 0], ∅, boxes))) true.
Proof. apply (one_way_orientations [1; 3; 2; 2; 1; 0]). reflexivity. Defined.

(** ** Primitive paths *)

Lemma raise_cons h tail : raise (h :: tail) = (h + 1) :: raise tail.
Proof. reflexivity. Qed.

Lemma heads_of_raise tail :
  tail ≠ [] → heads_of true (raise tail) = raise <$> heads_of false tail.
Proof.
  intros Hne. destruct tail as [|t0 l]; [congruence|].
  unfold heads_of. rewrite raise_cons. cbn [hd].
  change (map (λ head, head :: (t0 + 1) :: raise l))
    with (fmap (M := list) (λ head, head :: (t0 + 1) :: raise l)).
  change (map (λ head, head :: t0 :: l)) with (fmap (M := list) (λ head, head :: t0 :: l)).
  rewrite <- list_fmap_compose.
  replace (range 1 (t0 + 1 + 2)) with (map (λ x, x + 1) (range 0 (t0 + 2))).
  - change (map (λ x, x + 1)) with (fmap (M := list) (λ x : Z, x + 1)).
    rewrite <- list_fmap_compose. reflexivity.
  - rewrite (map_range (λ x, x + 1) 0 (t0 + 2) 1) by reflexivity.
    f_equal. lia.
Qed.

Lemma bind_heads_of_raise (tails : list (list Z)) :
  (∀ tail, tail ∈ tails → tail ≠ []) →
  (raise <$> tails) ≫= heads_of true = raise <$> (tails ≫= heads_of false).
Proof.
  induction tails as [|tail rest IH]; intros Hne; [reflexivity|].
  cbn [fmap list_fmap mbind list_bind].
  change (list_fmap _ _ raise rest) with (raise <$> rest).
  change (list_bind _ _ (heads_of true) (raise <$> rest))
    with ((raise <$> rest) ≫= heads_of true).
  change (list_bind _ _ (heads_of false) rest) with (rest ≫= heads_of false).
  rewrite fmap_app, heads_of_raise by (apply Hne; left).
  rewrite IH by (intros t Ht; apply Hne; right; exact Ht). reflexivity.
Qed.

Lemma all_dyck_paths_nonempty (k : nat) primitive paths :
  all_dyck_paths (Z.of_nat (S k)) primitive = Ok paths →
  ∀ tail, tail ∈ paths → tail ≠ [].
Proof.
  intros E tail Ht ->.
  destruct (all_dyck_paths_complete_nat (S k) primitive) as (paths' & E' & _ & Hmem).
  rewrite E in E'. injection E' as <-.
  apply Hmem in Ht as (Hl & _). rewrite len_nil in Hl. lia.
Qed.

Lemma primitive_paths_raise_nat (k : nat) :
  ∃ paths, all_dyck_paths (Z.of_nat k) false = Ok paths
    ∧ all_dyck_paths (Z.of_nat k + 1) true = Ok (raise <$> paths).
Proof.
  induction k as [|[|k] IH].
  - exists [[]]. split; reflexivity.
  - exists [[0]]. split; reflexivity.
  - destruct IH as (tails & Eall & Eprim).
    rewrite (all_dyck_paths_eq (Z.of_nat (S (S k)))).
    rewrite !decide_False, decide_True by lia.
    rewrite (all_dyck_paths_eq (Z.of_nat (S (S k)) + 1)).
    rewrite !decide_False, decide_True by lia.
    replace (Z.of_nat (S (S k)) - 1) with (Z.of_nat (S k)) by lia.
    replace (Z.of_nat (S (S k)) + 1 - 1) with (Z.of_nat (S k) + 1) by lia.
    rewrite Eall, Eprim. cbn [mbind result_bind].
    pose proof (all_dyck_paths_nonempty k false tails Eall) as Hne.
    rewrite !extend_tails_ok.
    + eexists. split; [reflexivity|]. f_equal. apply bind_heads_of_raise, Hne.
    + intros tail Ht. apply list_elem_of_fmap in Ht as (t & -> & _).
      unfold raise. intros E. apply app_eq_nil in E as [_ E]. discriminate.
    + exact Hne.
Qed.

(** For every [n >= 1], the primitive paths of length [n] are, in the
    order they are yielded, the paths of length [n - 1] with every entry
    raised by one and a 0 appended; so there are as many of the one as of
    the other. *)
Theorem primitive_paths_raise (n : Z) :
  1 ≤ n →
  ∃ paths, all_dyck_paths (n - 1) false = Ok paths
    ∧ all_dyck_paths n true = Ok (raise <$> paths).
Proof.
  intros Hn. destruct (primitive_paths_raise_nat (Z.to_nat (n - 1))) as (paths & E1 & E2).
  exists paths. rewrite Z2Nat.id in E1, E2 by lia.
  replace (n - 1 + 1) with n in E2 by lia. split; assumption.
Qed.

Lemma primitive_paths_raise_witness :
  ∃ paths, all_dyck_paths (4 - 1) false = Ok paths
    ∧ all_dyck_paths 4 true = Ok (raise <$> paths).
Proof. apply (primitive_paths_raise 4). lia. Defined.

(** ** [all_orientations] on a path that is not a Dyck path *)

Lemma classify_raises (ordering : list Z) (boxes : list (Z * Z))
    (acc : gset (Z * Z) * gset (Z * Z)) :
  (∀ i j, (i, j) ∈ boxes → 0 ≤ i ∧ 0 ≤ j) →
  (∃ i j, (i, j) ∈ boxes ∧ (len ordering ≤ i ∨ len ordering ≤ j)) →
  py_for (λ '(ascents, descents) '(i, j),
            oi ← py_index ordering i;
            oj ← py_index ordering j;
            if oi <? oj then Ok ({[ (i, j) ]} ∪ ascents, descents)
            else Ok (ascents, {[ (i, j) ]} ∪ descents))
         acc boxes
  = Raise IndexError.
Proof.
  revert acc. induction boxes as [|[i j] boxes IH]; intros [ascents descents] Hpos Hbad.
  { destruct Hbad as (i & j & H & _). inversion H. }
  cbn [py_for]. destruct (Hpos i j) as [Hi Hj]; [left|].
  destruct (decide (len ordering ≤ i)) as [Hi'|Hi'].
  { rewrite (py_index_out ordering i) by (right; exact Hi'). reflexivity. }
  rewrite (py_index_rank ordering i) by lia. cbn [mbind result_bind].
  destruct (decide (len ordering ≤ j)) as [Hj'|Hj'].
  { rewrite (py_index_out ordering j) by (right; exact Hj'). reflexivity. }
  rewrite (py_index_rank ordering j) by lia. cbn [mbind result_bind].
  assert (Hpos' : ∀ i0 j0, (i0, j0) ∈ boxes → 0 ≤ i0 ∧ 0 ≤ j0)
    by (intros; apply Hpos; right; assumption).
  assert (Hbad' : ∃ i0 j0, (i0, j0) ∈ boxes ∧ (len ordering ≤ i0 ∨ len ordering ≤ j0)).
  { destruct Hbad as (i0 & j0 & Hin & Hout).
    apply elem_of_cons in Hin as [[= -> ->]|Hin]; [lia|].
    exists i0, j0. split; assumption. }
  destruct (rank ordering i <? rank ordering j); cbn [mbind result_bind];
    apply IH; assumption.
Qed.

(** When some row of [path] counts boxes up to or beyond column
    [len(path)], so that [path] is no Dyck path, [all_orientations(path)]
    raises [IndexError] at [ordering[j]] instead of returning orientations. *)
Theorem all_orientations_overreach (path : list Z)
    (_cache : gmap (list Z) (gset (Z * Z))) :
  (∃ (i : nat) k, path !! i = Some k ∧ len path ≤ Z.of_nat i + k) →
  cache_ok _cache →
  ∃ _cache', all_orientations path _cache = (Raise IndexError, _cache')
             ∧ cache_ok _cache'.
Proof.
  intros (i & k & Hk & Hreach) Hc.
  assert (Hi : Z.of_nat i < len path).
  { apply lookup_lt_Some in Hk. unfold len. lia. }
  unfold all_orientations.
  destruct (permutations (range 0 (len path))) as [|o rest] eqn:Eperm.
  { exfalso. assert (H : range 0 (len path) ∈ permutations (range 0 (len path)))
      by (apply elem_of_permutations; reflexivity).
    rewrite Eperm in H. inversion H. }
  assert (Ho : len o = len path).
  { assert (H : o ∈ permutations (range 0 (len path))) by (rewrite Eperm; left).
    apply elem_of_permutations, length_permutation_range in H.
    pose proof (len_nonneg path). lia. }
  cbn [py_for]. unfold mbind at 1, memo_bind. unfold mbind at 1, memo_bind.
  destruct (boxes_under_path_returns path _cache Hc) as (c1 & -> & Hc1).
  exists c1. split; [|exact Hc1].
  unfold lift, classify. rewrite classify_raises; [reflexivity| |].
  - intros i0 j0 Hb. apply elem_of_elements, elem_of_boxes in Hb as (k0 & ? & _ & ?). lia.
  - exists (Z.of_nat i), (len path). split; [|right; lia].
    apply elem_of_elements, elem_of_boxes. exists k.
    split; [lia|]. split; [rewrite Nat2Z.id; exact Hk|lia].
Qed.

Lemma all_orientations_overreach_witness :
  ∃ _cache', all_orientations [1; 2; 0] ∅ = (Raise IndexError, _cache')
             ∧ cache_ok _cache'.
Proof.
  apply (all_orientations_overreach [1; 2; 0] ∅).
  - exists 1%nat, 2. split; [reflexivity|]. unfold len. simpl. lia.
  - apply cache_ok_empty.
Defined.

(** ** Reversing an orientation *)

Lemma length_add_at position boxes path : length (add_at position boxes path) = length path.
Proof.
  revert path. induction boxes as [|b boxes IH]; intros path; [reflexivity|].
  unfold add_at in *. cbn [foldl]. rewrite IH. apply length_alter.
Qed.

Lemma add_at_lookup position boxes path r :
  add_at position boxes path !! r =
    (λ x, x + Z.of_nat (length (filter (λ b, position b.1 = r) boxes))) <$> path !! r.
Proof.
  revert path. induction boxes as [|b boxes IH]; intros path.
  - cbn. destruct (path !! r) as [x|]; cbn; [f_equal; lia|reflexivity].
  - unfold add_at in *. cbn [foldl]. rewrite IH.
    rewrite filter_cons. destruct (decide (position b.1 = r)) as [->|Hne].
    + rewrite list_lookup_alter_eq. destruct (path !! _) as [x|]; cbn; [f_equal; lia|reflexivity].
    + rewrite list_lookup_alter_ne by exact Hne. reflexivity.
Qed.

Lemma add_at_perm position boxes boxes' path :
  boxes ≡ₚ boxes' → add_at position boxes path = add_at position boxes' path.
Proof.
  intros Hp. apply list_eq. intros r. rewrite !add_at_lookup.
  assert (E : length (filter (λ b, position b.1 = r) boxes)
              = length (filter (λ b, position b.1 = r) boxes'))
    by (rewrite Hp; reflexivity).
  rewrite E. reflexivity.
Qed.

Lemma add_at_app position l k path :
  add_at position k (add_at position l path) = add_at position (l ++ k) path.
Proof. unfold add_at. rewrite foldl_app. reflexivity. Qed.

Lemma count_rows_general (boxes : list (Z * Z)) (path : list Z) :
  py_for (λ path '(i, j), x ← py_index path i; py_setitem path i (x + 1))
         path boxes
  = if forallb (λ b, in_slots (len path) b.1) boxes
    then Ok (add_at (λ i, Z.to_nat (slot (len path) i)) boxes path)
    else Raise IndexError.
Proof.
  revert path. induction boxes as [|[i j] boxes IH]; intros path; [reflexivity|].
  cbn [py_for forallb fst]. unfold py_index, py_setitem.
  change (py_slot path i)
    with (if in_slots (len path) i then Ok (Z.to_nat (slot (len path) i))
          else Raise IndexError).
  destruct (in_slots (len path) i) eqn:Hin; [|reflexivity].
  cbn [mbind result_bind andb].
  assert (Hlt : (Z.to_nat (slot (len path) i) < length path)%nat).
  { unfold in_slots in Hin. apply andb_true_iff in Hin as [H1 H2].
    apply Z.leb_le in H1. apply Z.ltb_lt in H2. unfold len in *. lia. }
  destruct (lookup_lt_is_Some_2 path _ Hlt) as [x Hx]. rewrite Hx.
  cbn [mbind result_bind].
  replace (<[Z.to_nat (slot (len path) i) := x + 1]> path)
    with (alter (λ x, x + 1) (Z.to_nat (slot (len path) i)) path).
  - rewrite IH.
    replace (len (alter (λ x0, x0 + 1) (Z.to_nat (slot (len path) i)) path))
      with (len path) by (unfold len; rewrite length_alter; reflexivity).
    reflexivity.
  - apply list_eq. intros r.
    destruct (decide (r = Z.to_nat (slot (len path) i))) as [->|Hne].
    + rewrite list_lookup_alter_eq, Hx, list_lookup_insert_eq by exact Hlt. reflexivity.
    + rewrite list_lookup_alter_ne, list_lookup_insert_ne by congruence. reflexivity.
Qed.

Lemma underlying_path_general (n : Z) (ascents descents : gset (Z * Z)) :
  underlying_path n ascents descents =
    if forallb (λ b, in_slots (Z.max 0 n) b.1) (elements ascents)
       && forallb (λ b, in_slots (Z.max 0 n) b.1) (elements descents)
    then Ok (add_at (λ i, Z.to_nat (slot (Z.max 0 n) i))
                    (elements ascents ++ elements descents)
                    (replicate (Z.to_nat n) 0))
    else Raise IndexError.
Proof.
  unfold underlying_path, count_rows. rewrite count_rows_general.
  replace (len (replicate (Z.to_nat n) 0)) with (Z.max 0 n)
    by (unfold len; rewrite length_replicate; lia).
  destruct (forallb _ (elements ascents)); [|reflexivity].
  cbn [mbind result_bind andb]. rewrite count_rows_general.
  replace (len (add_at _ (elements ascents) (replicate (Z.to_nat n) 0)))
    with (Z.max 0 n)
    by (unfold len; rewrite length_add_at, length_replicate; lia).
  destruct (forallb _ (elements descents)); [|reflexivity].
  rewrite add_at_app. reflexivity.
Qed.

Lemma underlying_path_swap (n : Z) (ascents descents : gset (Z * Z)) :
  underlying_path n ascents descents = underlying_path n descents ascents.
Proof.
  rewrite !underlying_path_general.
  rewrite (andb_comm (forallb _ (elements ascents))).
  destruct (_ && _); [|reflexivity].
  f_equal. apply add_at_perm, Permutation_app_comm.
Qed.

Lemma no_3_cycle_swap (ascents descents : gset (Z * Z)) triples :
  no_3_cycle ascents descents triples = no_3_cycle descents ascents triples.
Proof.
  induction triples as [|[[i j] k] rest IH]; [reflexivity|].
  cbn [no_3_cycle]. rewrite IH.
  replace (is_3_cycle descents ascents (i, j, k))
    with (is_3_cycle ascents descents (i, j, k)); [reflexivity|].
  unfold is_3_cycle. apply orb_comm.
Qed.

Lemma orientation_ok_swap (n : Z) (ascents descents : gset (Z * Z)) :
  orientation_ok (n, ascents, descents) = orientation_ok (n, descents, ascents).
Proof.
  unfold orientation_ok. rewrite (underlying_path_swap n ascents descents).
  destruct (underlying_path n descents ascents) as [path|e]; [|reflexivity].
  rewrite (no_3_cycle_swap ascents descents), (comm_L (∪) ascents descents).
  f_equal. f_equal. f_equal. apply bool_decide_ext. split; intros H; symmetry; exact H.
Qed.

(** [is_orientation] gives the same answer on a triple and on the triple
    with ascents and descents exchanged, whatever they hold. *)
Theorem is_orientation_swap (n : Z) (ascents descents : gset (Z * Z)) :
  ∃ b, returns (is_orientation (orientation_val (n, ascents, descents))) b
     ∧ returns (is_orientation (orientation_val (n, descents, ascents))) b.
Proof.
  exists (orientation_ok (n, ascents, descents)). split; [apply is_orientation_val|].
  rewrite orientation_ok_swap. apply is_orientation_val.
Qed.

Lemma in_slots_empty (n i : Z) : n ≤ 0 → in_slots n i = false.
Proof.
  intros Hn. unfold in_slots.
  destruct (Z.leb_spec 0 (slot n i)), (Z.ltb_spec (slot n i) n); try reflexivity. lia.
Qed.

Lemma orientation_no_row (n : Z) (ascents descents : gset (Z * Z)) :
  n ≤ 0 →
  returns (is_orientation (orientation_val (n, ascents, descents)))
          (bool_decide (ascents = ∅ ∧ descents = ∅)).
Proof.
  intros Hn.
  replace (bool_decide (ascents = ∅ ∧ descents = ∅))
    with (orientation_ok (n, ascents, descents)); [apply is_orientation_val|].
  unfold orientation_ok. rewrite underlying_path_general.
  replace (Z.max 0 n) with 0 by lia. replace (Z.to_nat n) with 0%nat by lia.
  destruct (decide (ascents = ∅)) as [->|Ha].
  - destruct (decide (descents = ∅)) as [->|Hd].
    + rewrite (bool_decide_eq_true_2 _ (conj eq_refl eq_refl)).
      rewrite elements_empty. cbn [forallb andb app add_at foldl replicate].
      rewrite range_empty by lia. reflexivity.
    + rewrite (bool_decide_eq_false_2 (∅ = ∅ ∧ descents = ∅)) by (intros [_ ?]; contradiction).
      destruct (elements descents) as [|b l] eqn:E.
      { apply elements_empty_inv in E. apply leibniz_equiv in E. contradiction. }
      rewrite elements_empty. cbn [forallb andb].
      rewrite in_slots_empty by lia. reflexivity.
  - rewrite (bool_decide_eq_false_2 (ascents = ∅ ∧ descents = ∅)) by (intros [? _]; contradiction).
    destruct (elements ascents) as [|b l] eqn:E.
    { apply elements_empty_inv in E. apply leibniz_equiv in E. contradiction. }
    cbn [forallb andb]. rewrite in_slots_empty by lia. reflexivity.
Qed.

(** With an [int] [n <= 0] a triple passes [is_orientation] exactly when
    it has no ascent and no descent: a negative [n] is accepted with empty
    sets, as [0] is. *)
Theorem is_orientation_no_row (L : limits) (n : Z) (ascents descents : gset (Z * Z)) :
  is_int L n = true → n ≤ 0 →
  ∃ m, is_orientation_sized L (orientation_val (n, ascents, descents)) = Fits m
       ∧ returns m (bool_decide (ascents = ∅ ∧ descents = ∅)).
Proof.
  intros Hint Hn.
  rewrite is_orientation_sized_fits by (assumption || lia).
  eexists. split; [reflexivity|]. apply orientation_no_row, Hn.
Qed.

Lemma is_orientation_no_row_witness :
  ∃ m, is_orientation_sized cpython64 (orientation_val (-2, ∅, ∅)) = Fits m
       ∧ returns m (bool_decide ((∅ : gset (Z * Z)) = ∅ ∧ (∅ : gset (Z * Z)) = ∅)).
Proof.
  apply (is_orientation_no_row cpython64 (-2) ∅ ∅).
  - reflexivity.
  - lia.
Defined.

(** The set [all_orientations(p)] of a valid Dyck path is closed under
    exchanging ascents and descents. *)
Theorem all_orientations_reversed (p : list Z) :
  is_dyck_path (tuple_of p) = Ok true →
  ∃ orientations, returns (all_orientations p) orientations
    ∧ ∀ (n : Z) (ascents descents : gset (Z * Z)),
        (n, ascents, descents) ∈ orientations →
        (n, descents, ascents) ∈ orientations.
Proof.
  rewrite is_dyck_path_tuple, Ok_eq. intros Hd.
  eexists. split; [apply all_orientations_returns, Hd|].
  intros n ascents descents Hao.
  apply elem_of_orientations in Hao as (o & _ & E).
  pose proof (oriented_ok p o Hd) as Hok. rewrite <- E in Hok.
  assert (Hpath : underlying_path n ascents descents = Ok p).
  { injection E as -> -> ->.
    apply underlying_path_boxes; [exact Hd|apply oriented_disjoint|apply oriented_cover]. }
  assert (Hn : n = len p) by (injection E as -> _ _; reflexivity).
  rewrite orientation_ok_swap in Hok. rewrite underlying_path_swap in Hpath.
  pose proof Hok as Hok'. unfold orientation_ok in Hok'. rewrite Hpath in Hok'.
  apply andb_true_iff in Hok' as [Hok' Hcyc].
  apply andb_true_iff in Hok' as [Hok' Hcover].
  apply andb_true_iff in Hok' as [_ Hdisj].
  apply bool_decide_eq_true in Hcover, Hdisj. subst n.
  destruct (partition_from_ordering p descents ascents Hd Hdisj Hcover Hcyc) as (o' & Ho' & E').
  apply elem_of_orientations. exists o'.
  split; [apply elem_of_permutations, Ho'|exact E'].
Qed.

Lemma all_orientations_reversed_witness :
  ∃ orientations, returns (all_orientations [1; 1; 0]) orientations
    ∧ ∀ (n : Z) (ascents descents : gset (Z * Z)),
        (n, ascents, descents) ∈ orientations →
        (n, descents, ascents) ∈ orientations.
Proof. apply (all_orientations_reversed [1; 1; 0]). reflexivity. Defined.

(** ** [test_generation] *)

(** *** The order on tuples *)

Lemma tuple_le_nil t : tuple_le [] t.
Proof. reflexivity. Qed.

Lemma tuple_le_cons x s y t :
  tuple_le (x :: s) (y :: t) ↔ x < y ∨ (x = y ∧ tuple_le s t).
Proof.
  unfold tuple_le. cbn [tuple_leb].
  rewrite orb_true_iff, andb_true_iff, Z.ltb_lt, Z.eqb_eq. reflexivity.
Qed.

#[global] Instance tuple_le_total : Total tuple_le.
Proof.
  intros s. induction s as [|x s IH]; intros t; [left; apply tuple_le_nil|].
  destruct t as [|y t]; [right; apply tuple_le_nil|].
  rewrite !tuple_le_cons. destruct (IH t); destruct (Z.lt_total x y) as [?|[?|?]];
    subst; tauto || lia || auto.
Qed.

#[global] Instance tuple_le_trans : Transitive tuple_le.
Proof.
  intros s. induction s as [|x s IH]; intros t u Hst Htu; [apply tuple_le_nil|].
  destruct t as [|y t]; [discriminate|]. destruct u as [|z u]; [discriminate|].
  apply tuple_le_cons in Hst, Htu. apply tuple_le_cons.
  destruct Hst as [?|[-> Hst]], Htu as [?|[-> Htu]]; try (left; lia).
  right. split; [reflexivity|]. apply (IH t u); assumption.
Qed.

#[global] Instance tuple_le_antisymm : AntiSymm (=) tuple_le.
Proof.
  intros s. induction s as [|x s IH]; intros t Hst Hts.
  - destruct t; [reflexivity|discriminate].
  - destruct t as [|y t]; [discriminate|].
    apply tuple_le_cons in Hst, Hts.
    destruct Hst as [?|[? Hst]], Hts as [?|[? Hts]]; try lia.
    subst. f_equal. apply IH; assumption.
Qed.

Lemma py_sorted_perm l : py_sorted l ≡ₚ l.
Proof. apply merge_sort_Permutation. Qed.

Lemma py_sorted_sorted l : StronglySorted tuple_le (py_sorted l).
Proof. apply StronglySorted_merge_sort; apply _. Qed.

(** A sorted list without repetition is the sorted version of any list
    with the same tuples, each once. *)
Lemma py_sorted_unique l k :
  NoDup l → NoDup k → StronglySorted tuple_le k → (∀ t, t ∈ l ↔ t ∈ k) →
  py_sorted l = k.
Proof.
  intros Hl Hk Hs Hmem.
  apply (StronglySorted_unique tuple_le); [apply py_sorted_sorted|exact Hs|].
  rewrite py_sorted_perm. apply NoDup_Permutation; assumption.
Qed.

(** *** The product *)

Lemma elem_of_product (l : list Z) r t :
  t ∈ product l r ↔ length t = r ∧ ∀ x, x ∈ t → x ∈ l.
Proof.
  revert t. induction r as [|r IH]; intros t; cbn [product].
  - rewrite list_elem_of_singleton. split.
    + intros ->. split; [reflexivity|]. intros x H. inversion H.
    + intros [Hl _]. destruct t; [reflexivity|discriminate].
  - rewrite list_elem_of_bind. split.
    + intros (x & Ht & Hx). apply list_elem_of_fmap in Ht as (t' & -> & Ht').
      apply IH in Ht' as [Hl Hin]. split; [cbn; lia|].
      intros y Hy. apply elem_of_cons in Hy as [->|Hy]; [exact Hx|apply Hin, Hy].
    + intros [Hl Hin]. destruct t as [|x t']; [discriminate|].
      exists x. split; [|apply Hin; left].
      apply list_elem_of_fmap. exists t'. split; [reflexivity|].
      apply IH. split; [cbn in Hl; lia|]. intros y Hy. apply Hin. right. exact Hy.
Qed.

Lemma NoDup_product (l : list Z) r : NoDup l → NoDup (product l r).
Proof.
  intros Hl. induction r as [|r IH]; cbn [product]; [apply NoDup_singleton|].
  apply NoDup_bind; [| |exact Hl].
  - intros x1 x2 t _ _ H1 H2.
    apply list_elem_of_fmap in H1 as (t1 & -> & _).
    apply list_elem_of_fmap in H2 as (t2 & [= -> _] & _). reflexivity.
  - intros x _. apply NoDup_fmap_2; [|exact IH]. intros t1 t2 [= ->]. reflexivity.
Qed.

Lemma StronglySorted_cons_fmap x (l : list (list Z)) :
  StronglySorted tuple_le l → StronglySorted tuple_le ((λ t, x :: t) <$> l).
Proof.
  induction 1 as [|t l Hl IH Ht]; cbn; constructor; [exact IH|].
  apply Forall_fmap. eapply Forall_impl; [exact Ht|].
  intros u Hu. apply tuple_le_cons. right. split; [reflexivity|exact Hu].
Qed.

Lemma heads_sorted (l : list Z) (tails : list (list Z)) :
  StronglySorted Z.lt l → StronglySorted tuple_le tails →
  StronglySorted tuple_le (l ≫= λ x, (λ t, x :: t) <$> tails).
Proof.
  intros Hl Ht. induction Hl as [|x l Hl IHl Hx]; cbn [mbind list_bind]; [constructor|].
  apply StronglySorted_app_2.
  - intros t1 t2 H1 H2. apply list_elem_of_fmap in H1 as (t1' & -> & _).
    apply list_elem_of_bind in H2 as (y & H2 & Hy).
    apply list_elem_of_fmap in H2 as (t2' & -> & _).
    apply tuple_le_cons. left.
    rewrite Forall_forall in Hx. apply Hx, Hy.
  - apply StronglySorted_cons_fmap, Ht.
  - apply IHl.
Qed.

Lemma product_sorted (l : list Z) r :
  StronglySorted Z.lt l → StronglySorted tuple_le (product l r).
Proof.
  intros Hl. induction r as [|r IH]; cbn [product].
  - repeat constructor.
  - apply heads_sorted; assumption.
Qed.

Lemma range_sorted a b : StronglySorted Z.lt (range a b).
Proof.
  remember (Z.to_nat (b - a)) as m eqn:Hm. revert a Hm.
  induction m as [|m IH]; intros a Hm.
  - rewrite range_empty by lia. constructor.
  - rewrite range_cons by lia. constructor; [apply IH; lia|].
    apply Forall_forall. intros x Hx. apply elem_of_range in Hx. lia.
Qed.

(** *** The filters *)

Lemma py_filter_ok {A} (f : A → result bool) (P : A → Prop)
    `{!∀ x, Decision (P x)} (l : list A) :
  (∀ x, x ∈ l → f x = Ok (bool_decide (P x))) →
  py_filter f l = Ok (filter P l).
Proof.
  induction l as [|x l IH]; intros Hf; [reflexivity|].
  cbn [py_filter]. rewrite Hf by left. cbn [mbind result_bind].
  rewrite IH by (intros y Hy; apply Hf; right; exact Hy).
  cbn [mbind result_bind]. rewrite filter_cons.
  destruct (decide (P x)) as [HP|HP].
  - rewrite bool_decide_eq_true_2 by exact HP. reflexivity.
  - rewrite bool_decide_eq_false_2 by exact HP. reflexivity.
Qed.

Lemma StronglySorted_filter {A} (R : relation A) (P : A → Prop)
    `{!∀ x, Decision (P x)} (l : list A) :
  StronglySorted R l → StronglySorted R (filter P l).
Proof.
  induction 1 as [|x l Hl IH Hx]; [constructor|].
  rewrite filter_cons. destruct (decide (P x)); [|exact IH].
  constructor; [exact IH|]. apply Forall_forall. intros y Hy.
  apply list_elem_of_filter in Hy as [_ Hy].
  rewrite Forall_forall in Hx. apply Hx, Hy.
Qed.

Lemma is_primitive_dyck t : dyck t = true → is_primitive t = Ok (primitive t).
Proof.
  intros Hd. unfold primitive.
  destruct t as [|x l]; [reflexivity|].
  assert (Hin : 0 ∈ x :: l).
  { apply dyck_spec in Hd as (_ & _ & [?|Hlast]); [discriminate|].
    apply last_Some in Hlast as (l' & ->). apply elem_of_app. right. left. }
  apply list_elem_of_split_l in Hin as (pre & rest & -> & Hpre).
  rewrite is_primitive_first by exact Hpre.
  destruct (bool_decide (rest = [])); reflexivity.
Qed.

Lemma primitive_true t : primitive t = true ↔ is_primitive t = Ok true.
Proof.
  unfold primitive. destruct (is_primitive t) as [[|]|e]; split; congruence.
Qed.

(** *** The two assertions *)

Lemma dyck_in_product (n : nat) t :
  length t = n → dyck t = true →
  t ∈ product (range 0 (Z.of_nat n)) (Z.to_nat (Z.of_nat n)).
Proof.
  intros Hl Hd. apply elem_of_product. split; [lia|].
  intros x Hx. apply list_elem_of_lookup in Hx as [r Hr].
  pose proof (dyck_bound t r x Hd Hr) as Hb. apply elem_of_range.
  pose proof (lookup_lt_Some _ _ _ Hr). unfold len in Hb. lia.
Qed.

Lemma test_generation_at_nat (n : nat) : test_generation_at (Z.of_nat n) = Passed tt.
Proof.
  unfold test_generation_at.
  destruct (all_dyck_paths_complete_nat n false) as (paths & -> & Hnd & Hmem).
  destruct (all_dyck_paths_complete_nat n true) as (ppaths & -> & Hpnd & Hpmem).
  cbn [unchecked mbind checked_bind].
  set (candidates := product (range 0 (Z.of_nat n)) (Z.to_nat (Z.of_nat n))).
  rewrite (py_filter_ok _ (λ t, dyck t = true)).
  2:{ intros t _. rewrite is_dyck_path_tuple. f_equal.
      destruct (dyck t); [rewrite bool_decide_eq_true_2|rewrite bool_decide_eq_false_2];
        congruence. }
  cbn [unchecked mbind checked_bind].
  set (filtered := filter (λ t, dyck t = true) candidates).
  assert (Hfs : StronglySorted tuple_le filtered).
  { apply StronglySorted_filter, product_sorted, range_sorted. }
  assert (Hfnd : NoDup filtered).
  { apply NoDup_filter, NoDup_product, NoDup_range. }
  assert (Hfmem : ∀ t, t ∈ filtered ↔ len t = Z.of_nat n ∧ dyck t = true).
  { intros t. unfold filtered. rewrite list_elem_of_filter. split.
    - intros [Hd Ht]. apply elem_of_product in Ht as [Hl _].
      split; [unfold len; lia|exact Hd].
    - intros [Hl Hd]. split; [exact Hd|].
      apply dyck_in_product; [unfold len in Hl; lia|exact Hd]. }
  rewrite (py_sorted_unique paths filtered Hnd Hfnd Hfs).
  2:{ intros t. rewrite Hmem, Hfmem. unfold wanted.
      rewrite is_dyck_path_tuple, Ok_eq. split; [tauto|].
      intros [? ?]. split; [assumption|]. split; [assumption|discriminate]. }
  rewrite bool_decide_eq_true_2 by reflexivity. cbn [py_assert mbind checked_bind].
  rewrite (py_filter_ok _ (λ t, primitive t = true)).
  2:{ intros t Ht. apply Hfmem in Ht as [_ Hd]. rewrite (is_primitive_dyck t Hd). f_equal.
      destruct (primitive t); [rewrite bool_decide_eq_true_2|rewrite bool_decide_eq_false_2];
        congruence. }
  cbn [unchecked mbind checked_bind].
  rewrite (py_sorted_unique ppaths (filter (λ t, primitive t = true) filtered) Hpnd).
  - rewrite bool_decide_eq_true_2 by reflexivity. reflexivity.
  - apply NoDup_filter, Hfnd.
  - apply StronglySorted_filter, Hfs.
  - intros t. rewrite Hpmem, list_elem_of_filter, Hfmem, primitive_true. unfold wanted.
    rewrite is_dyck_path_tuple, Ok_eq. split.
    + intros (? & ? & Hp). split; [apply Hp; reflexivity|]. split; assumption.
    + intros (? & ? & ?). split; [assumption|]. split; [assumption|]. intros _. assumption.
Qed.

Lemma py_for_passed {A} (body : unit → A → checked unit) (l : list A) :
  (∀ x, x ∈ l → body tt x = Passed tt) → py_for body tt l = Passed tt.
Proof.
  induction l as [|x l IH]; intros Hbody; [reflexivity|].
  cbn [py_for]. rewrite Hbody by left. cbn [mbind checked_bind].
  apply IH. intros y Hy. apply Hbody. right. exact Hy.
Qed.

(** [test_generation(max_n)] passes for every [max_n], not only the 6 of
    its doctest: for each [n] from 0 to [max_n] the sorted output of
    [all_dyck_paths(n)] is the list of the tuples over [range(n)] that pass
    [is_dyck_path], and the sorted output with [primitive=True] is the list
    of those that pass [is_primitive] as well; no assertion fails and no
    exception is raised. *)
Theorem test_generation_passes (max_n : Z) : test_generation max_n = Passed tt.
Proof.
  unfold test_generation. apply py_for_passed.
  intros n Hn. apply elem_of_range in Hn.
  rewrite <- (Z2Nat.id n) by lia. apply test_generation_at_nat.
Qed.

(** ** [ascii] *)

(** [ascii(path)] fails its assertion exactly when [path] is no Dyck path,
    raises [ValueError] (from [max]) exactly on the empty path, which is a
    valid one, and returns a string on every other valid path. *)
Theorem ascii_outcome (path : list Z) :
  match ascii path with
  | AssertionError => is_dyck_path (tuple_of path) = Ok false
  | Uncaught e => path = [] ∧ e = ValueError
  | Passed _ => is_dyck_path (tuple_of path) = Ok true ∧ path ≠ []
  end.
Proof.
  unfold ascii. rewrite is_dyck_path_tuple.
  destruct (dyck path); cbn [unchecked mbind checked_bind py_assert]; [|reflexivity].
  destruct path as [|x l]; cbn [py_max unchecked mbind checked_bind mret checked_ret].
  - split; reflexivity.
  - split; [reflexivity|discriminate].
Qed.

Lemma foldl_snoc_map {A B} (f : A → B) (acc : list B) (l : list A) :
  foldl (λ rows x, rows ++ [f x]) acc l = acc ++ map f l.
Proof.
  revert acc. induction l as [|x l IH]; intros acc; cbn [foldl map].
  - rewrite app_nil_r. reflexivity.
  - rewrite IH, <- app_assoc. reflexivity.
Qed.

Lemma foldl_app_concat {A B} (f : A → list B) (acc : list B) (l : list A) :
  foldl (λ row x, row ++ f x) acc l = acc ++ concat (map f l).
Proof.
  revert acc. induction l as [|x l IH]; intros acc; cbn [foldl map concat].
  - rewrite app_nil_r. reflexivity.
  - rewrite IH, <- app_assoc. reflexivity.
Qed.

(** *** Stripping *)

Lemma lstrip_split (s : str) :
  ∃ spaces, s = spaces ++ lstrip s ∧ Forall (λ c, is_whitespace c = true) spaces.
Proof.
  induction s as [|c s (spaces & E & Hs)]; [exists []; split; [reflexivity|constructor]|].
  cbn [lstrip]. destruct (is_whitespace c) eqn:Hc.
  - exists (c :: spaces). split; [cbn; rewrite <- E; reflexivity|constructor; assumption].
  - exists []. split; [reflexivity|constructor].
Qed.

Lemma rstrip_split (s : str) :
  ∃ spaces, s = rstrip s ++ spaces ∧ Forall (λ c, is_whitespace c = true) spaces.
Proof.
  destruct (lstrip_split (reverse s)) as (spaces & E & Hs).
  exists (reverse spaces). split.
  - unfold rstrip. rewrite <- reverse_app, <- E, reverse_involutive. reflexivity.
  - apply Forall_reverse. exact Hs.
Qed.

Lemma rstrip_keep (s : str) (c : Ascii.ascii) :
  is_whitespace c = false → rstrip (s ++ [c]) = s ++ [c].
Proof.
  intros Hc. unfold rstrip. rewrite reverse_snoc. cbn [lstrip]. rewrite Hc.
  rewrite reverse_cons, reverse_involutive. reflexivity.
Qed.

Lemma occurrences_app c s t : occurrences c (s ++ t) = (occurrences c s + occurrences c t)%nat.
Proof. unfold occurrences, str. rewrite filter_app, length_app. reflexivity. Qed.

Lemma occurrences_absent c s : c ∉ s → occurrences c s = 0%nat.
Proof.
  intros Hc. unfold occurrences, str. induction s as [|x s IH]; [reflexivity|].
  apply not_elem_of_cons in Hc as [Hne Hc]. rewrite filter_cons.
  destruct (decide (x = c)); [congruence|]. apply IH, Hc.
Qed.

Lemma occurrences_rstrip c s :
  is_whitespace c = false → occurrences c (rstrip s) = occurrences c s.
Proof.
  intros Hc. destruct (rstrip_split s) as (spaces & E & Hs).
  rewrite E at 2. rewrite occurrences_app, (occurrences_absent c spaces); [lia|].
  intros Hin. rewrite Forall_forall in Hs. apply Hs in Hin. congruence.
Qed.

Lemma occurrences_single c : occurrences c [c] = 1%nat.
Proof.
  unfold occurrences, str. rewrite filter_cons, decide_True by reflexivity. reflexivity.
Qed.

Lemma py_sum_nil : py_sum [] = 0.
Proof. reflexivity. Qed.

Lemma py_sum_app l k : py_sum (l ++ k) = py_sum l + py_sum k.
Proof.
  induction l as [|x l IH]; [rewrite py_sum_nil; cbn [app]; lia|].
  cbn [app]. rewrite !py_sum_cons, IH. lia.
Qed.

Lemma py_sum_map_reverse {A} (f : A → Z) l : py_sum (map f (reverse l)) = py_sum (map f l).
Proof.
  induction l as [|x l IH]; [reflexivity|].
  rewrite reverse_cons, map_app, py_sum_app, IH. cbn [map].
  rewrite !py_sum_cons, py_sum_nil. lia.
Qed.

Lemma py_sum_map_add {A} (f g : A → Z) l :
  py_sum (map (λ x, f x + g x) l) = py_sum (map f l) + py_sum (map g l).
Proof.
  induction l as [|x l IH]; [reflexivity|].
  cbn [map]. rewrite !py_sum_cons, IH. lia.
Qed.

Lemma py_sum_map_const {A} (f : A → Z) (v : Z) l :
  (∀ x, x ∈ l → f x = v) → py_sum (map f l) = v * len l.
Proof.
  induction l as [|x l IH]; intros Hf.
  - change (len (@nil A)) with 0. cbn. lia.
  - cbn [map]. rewrite py_sum_cons, len_cons, IH by (intros y Hy; apply Hf; right; exact Hy).
    rewrite (Hf x) by left. lia.
Qed.

(** *** [join] *)

Lemma join_cons (sep s : str) (rest : list str) :
  rest ≠ [] → join sep (s :: rest) = s ++ sep ++ join sep rest.
Proof. destruct rest; [congruence|reflexivity]. Qed.

Lemma join_snoc (sep s : str) (rows : list str) :
  rows ≠ [] → join sep (rows ++ [s]) = join sep rows ++ sep ++ s.
Proof.
  induction rows as [|r rows IH]; [congruence|]. intros _.
  destruct rows as [|r' rows]; [reflexivity|].
  change ((r :: r' :: rows) ++ [s]) with (r :: ((r' :: rows) ++ [s])).
  rewrite join_cons by (cbn; discriminate). rewrite IH by discriminate.
  rewrite (join_cons sep r (r' :: rows)) by discriminate.
  rewrite <- !app_assoc. reflexivity.
Qed.

Lemma occurrences_join (c : Ascii.ascii) (sep : str) (rows : list str) :
  c ∉ sep →
  Z.of_nat (occurrences c (join sep rows))
  = py_sum (map (λ r, Z.of_nat (occurrences c r)) rows).
Proof.
  intros Hc. induction rows as [|r rows IH]; [reflexivity|].
  cbn [map]. rewrite py_sum_cons. destruct rows as [|r' rows].
  - cbn [join map]. rewrite py_sum_nil. lia.
  - rewrite join_cons by discriminate.
    rewrite !occurrences_app, (occurrences_absent c sep Hc), !Nat2Z.inj_add, IH. lia.
Qed.

Lemma occurrences_join_sep (c : Ascii.ascii) (rows : list str) :
  Forall (λ r, c ∉ r) rows →
  occurrences c (join [c] rows) = pred (length rows).
Proof.
  induction 1 as [|r rows Hr Hrows IH]; [reflexivity|].
  destruct rows as [|r' rows].
  - cbn [join length pred]. apply occurrences_absent, Hr.
  - rewrite join_cons by discriminate.
    rewrite !occurrences_app, (occurrences_absent c r Hr), occurrences_single, IH.
    reflexivity.
Qed.

(** *** The rows of the picture *)

Lemma ascii_row_raw (path : list Z) (height : Z) :
  ascii_row path height
  = rstrip (replicate (Z.to_nat height) " "%char ++ concat (map (ascii_cell height) path)).
Proof. unfold ascii_row. rewrite foldl_app_concat. reflexivity. Qed.

Lemma elem_of_rstrip (c : Ascii.ascii) (s : str) : c ∈ rstrip s → c ∈ s.
Proof.
  intros Hc. destruct (rstrip_split s) as (spaces & E & _).
  rewrite E. apply elem_of_app. left. exact Hc.
Qed.

Lemma elem_of_cells (c : Ascii.ascii) (height : Z) (path : list Z) :
  c ∈ concat (map (ascii_cell height) path) → c = "/"%char ∨ c = "\"%char ∨ c = " "%char.
Proof.
  induction path as [|e path IH]; cbn [map concat]; [intros H; inversion H|].
  rewrite elem_of_app. intros [Hc|Hc]; [|apply IH, Hc].
  unfold ascii_cell in Hc. destruct (height <=? e);
    repeat (apply elem_of_cons in Hc as [->|Hc]; [tauto|]); inversion Hc.
Qed.

Lemma ascii_row_no_newline (path : list Z) (height : Z) :
  "010"%char ∉ ascii_row path height.
Proof.
  rewrite ascii_row_raw. intros Hc. apply elem_of_rstrip, elem_of_app in Hc as [Hc|Hc].
  - apply elem_of_replicate_inv in Hc. discriminate.
  - apply elem_of_cells in Hc as [Hc|[Hc|Hc]]; discriminate.
Qed.

Lemma occurrences_cells (c : Ascii.ascii) (height : Z) (path : list Z) :
  c = "/"%char ∨ c = "\"%char →
  Z.of_nat (occurrences c (concat (map (ascii_cell height) path)))
  = py_sum (map (λ e, if height <=? e then 1 else 0) path).
Proof.
  intros Hc. induction path as [|e path IH]; [reflexivity|].
  cbn [map concat]. rewrite py_sum_cons, occurrences_app, Nat2Z.inj_add, IH. f_equal.
  unfold ascii_cell. destruct (height <=? e), Hc as [->| ->]; reflexivity.
Qed.

Lemma occurrences_ascii_row (c : Ascii.ascii) (height : Z) (path : list Z) :
  c = "/"%char ∨ c = "\"%char →
  Z.of_nat (occurrences c (ascii_row path height))
  = py_sum (map (λ e, if height <=? e then 1 else 0) path).
Proof.
  intros Hc. rewrite ascii_row_raw, occurrences_rstrip.
  - rewrite occurrences_app, (occurrences_absent c (replicate _ _)).
    + apply occurrences_cells, Hc.
    + intros Hin. apply elem_of_replicate_inv in Hin. destruct Hc; subst; discriminate.
  - destruct Hc as [->| ->]; reflexivity.
Qed.

Lemma levels_below (x top : Z) :
  0 ≤ x ≤ top →
  py_sum (map (λ height, if height <=? x then 1 else 0) (range 0 (top + 1))) = x + 1.
Proof.
  intros Hx. rewrite (range_app 0 (x + 1) (top + 1)) by lia.
  rewrite map_app, py_sum_app.
  rewrite (py_sum_map_const _ 1), (py_sum_map_const _ 0), !length_range.
  - lia.
  - intros h Hh. apply elem_of_range in Hh. destruct (Z.leb_spec h x); [lia|reflexivity].
  - intros h Hh. apply elem_of_range in Hh. destruct (Z.leb_spec h x); [reflexivity|lia].
Qed.

Lemma cells_total (path : list Z) (top : Z) :
  Forall (λ e, 0 ≤ e ≤ top) path →
  py_sum (map (λ height, py_sum (map (λ e, if height <=? e then 1 else 0) path))
              (range 0 (top + 1)))
  = len path + py_sum path.
Proof.
  induction 1 as [|x path Hx Hpath IH].
  - rewrite (py_sum_map_const _ 0) by (intros; reflexivity). reflexivity.
  - rewrite len_cons, py_sum_cons.
    rewrite (map_ext _ (λ height, (if height <=? x then 1 else 0)
               + py_sum (map (λ e, if height <=? e then 1 else 0) path)))
      by (intros h; cbn [map]; apply py_sum_cons).
    rewrite py_sum_map_add, levels_below, IH by exact Hx. lia.
Qed.

Lemma foldl_max_spec (l : list Z) (x : Z) :
  foldl Z.max x l ∈ x :: l ∧ Forall (λ e, e ≤ foldl Z.max x l) (x :: l).
Proof.
  revert x. induction l as [|y l IH]; intros x; cbn [foldl].
  - split; [left|repeat constructor; lia].
  - destruct (IH (Z.max x y)) as [Hin Hall]. apply Forall_cons in Hall as [Hm Hall].
    split.
    + apply elem_of_cons in Hin as [->|Hin].
      * destruct (Z.max_spec x y) as [[_ ->]|[_ ->]]; [right; left|left].
      * right. right. exact Hin.
    + constructor; [lia|]. constructor; [lia|exact Hall].
Qed.

Lemma py_max_spec (path : list Z) (top : Z) :
  py_max path = Ok top → top ∈ path ∧ Forall (λ e, e ≤ top) path.
Proof.
  destruct path as [|x l]; [discriminate|]. intros [= <-]. apply foldl_max_spec.
Qed.

Lemma ascii_passed (path : list Z) (s : str) :
  ascii path = Passed s →
  dyck path = true
  ∧ ∃ top, py_max path = Ok top
      ∧ s = join ["010"%char] (reverse (map (ascii_row path) (range 0 (top + 1)))).
Proof.
  intros Hs. unfold ascii in Hs. rewrite is_dyck_path_tuple in Hs.
  destruct (dyck path) eqn:Hd; [|discriminate]. split; [reflexivity|].
  cbn [unchecked mbind checked_bind py_assert] in Hs.
  destruct (py_max path) as [top|e] eqn:Hmax; [|discriminate].
  cbn [unchecked mbind checked_bind mret checked_ret] in Hs.
  rewrite foldl_snoc_map in Hs. injection Hs as <-. exists top. split; reflexivity.
Qed.

Lemma baseline_stays (n : nat) :
  n ≠ 0%nat →
  rstrip (concat (replicate n ["/"; "\"]%char)) = concat (replicate n ["/"; "\"]%char).
Proof.
  destruct n as [|n]; [congruence|]. intros _.
  rewrite replicate_S_end, concat_app. cbn [concat].
  change (["/"; "\"]%char ++ []) with (["/"%char] ++ ["\"%char]).
  rewrite app_assoc. apply rstrip_keep. reflexivity.
Qed.

Lemma ascii_row_baseline (path : list Z) :
  path ≠ [] → Forall (λ e, 0 ≤ e) path →
  ascii_row path 0 = concat (replicate (length path) ["/"; "\"]%char).
Proof.
  intros Hne Hpos. rewrite ascii_row_raw. cbn [Z.to_nat replicate app].
  replace (map (ascii_cell 0) path) with (replicate (length path) ["/"; "\"]%char).
  - apply baseline_stays. destruct path; [congruence|discriminate].
  - clear Hne. induction Hpos as [|e path He _ IH]; [reflexivity|].
    cbn [length replicate map]. rewrite IH. f_equal.
    unfold ascii_cell. destruct (Z.leb_spec 0 e); [reflexivity|lia].
Qed.

(** A picture has one line more than the largest entry of the path. *)
Theorem ascii_line_count (path : list Z) (s : str) :
  ascii path = Passed s →
  ∃ top, top ∈ path ∧ Forall (λ e, e ≤ top) path
    ∧ occurrences "010"%char s = Z.to_nat top.
Proof.
  intros Hs. apply ascii_passed in Hs as (Hd & top & Hmax & ->).
  exists top. destruct (py_max_spec path top Hmax) as [Hin Hall].
  split; [exact Hin|]. split; [exact Hall|].
  assert (0 ≤ top).
  { pose proof (dyck_nonneg path Hd) as Hpos. rewrite Forall_forall in Hpos. apply Hpos, Hin. }
  rewrite occurrences_join_sep.
  - rewrite length_reverse, length_map. unfold range. rewrite length_seqZ. lia.
  - apply Forall_reverse, Forall_forall. intros r Hr.
    apply list_elem_of_fmap in Hr as (h & -> & _). apply ascii_row_no_newline.
Qed.

Lemma ascii_line_count_witness :
  ∃ top, top ∈ [2; 1; 0] ∧ Forall (λ e, e ≤ top) [2; 1; 0]
    ∧ occurrences "010"%char
        (String.list_ascii_of_string "  /\
 /\/\
/\/\/\") = Z.to_nat top.
Proof. apply (ascii_line_count [2; 1; 0]). vm_compute. reflexivity. Defined.

(** The last line of a picture is one peak per row, side by side, with
    nothing stripped from it. *)
Theorem ascii_baseline (path : list Z) (s : str) :
  ascii path = Passed s →
  ∃ above, s = above ++ concat (replicate (length path) ["/"; "\"]%char)
    ∧ (above = [] ∨ last above = Some "010"%char).
Proof.
  intros Hs. apply ascii_passed in Hs as (Hd & top & Hmax & ->).
  destruct (py_max_spec path top Hmax) as [Hin Hall].
  pose proof (dyck_nonneg path Hd) as Hpos.
  assert (0 ≤ top) by (rewrite Forall_forall in Hpos; apply Hpos, Hin).
  assert (Hne : path ≠ []) by (intros ->; inversion Hin).
  rewrite (range_cons 0 (top + 1)) by lia. cbn [map]. rewrite reverse_cons.
  rewrite (ascii_row_baseline path Hne Hpos).
  destruct (reverse (map (ascii_row path) (range (0 + 1) (top + 1)))) as [|r rows] eqn:E.
  - exists []. split; [reflexivity|left; reflexivity].
  - rewrite join_snoc by discriminate.
    exists (join ["010"%char] (r :: rows) ++ ["010"%char]).
    split; [rewrite <- app_assoc; reflexivity|right; apply last_snoc].
Qed.

Lemma ascii_baseline_witness :
  ∃ above, String.list_ascii_of_string "   /\
/\/\/\" = above ++ concat (replicate (length [0; 1; 0]) ["/"; "\"]%char)
    ∧ (above = [] ∨ last above = Some "010"%char).
Proof. apply (ascii_baseline [0; 1; 0]). vm_compute. reflexivity. Defined.

(** A picture draws one peak for every row and one for every box under the
    path: that many [/] and that many [\]. *)
Theorem ascii_peaks (path : list Z) (s : str) :
  ascii path = Passed s →
  Z.of_nat (occurrences "/"%char s) = len path + Z.of_nat (size (_boxes_under_path path))
  ∧ Z.of_nat (occurrences "\"%char s) = len path + Z.of_nat (size (_boxes_under_path path)).
Proof.
  intros Hs. apply ascii_passed in Hs as (Hd & top & Hmax & ->).
  destruct (py_max_spec path top Hmax) as [Hin Hall].
  pose proof (dyck_nonneg path Hd) as Hpos.
  rewrite size_boxes by exact Hpos.
  assert (Hboth : Forall (λ e, 0 ≤ e ≤ top) path).
  { rewrite Forall_forall in *. intros e He. split; [apply Hpos|apply Hall]; exact He. }
  assert (Hcount : ∀ c, c = "/"%char ∨ c = "\"%char →
    Z.of_nat (occurrences c
      (join ["010"%char] (reverse (map (ascii_row path) (range 0 (top + 1))))))
    = len path + py_sum path).
  { intros c Hc. rewrite occurrences_join.
    - rewrite py_sum_map_reverse, map_map, <- (cells_total path top Hboth). f_equal.
      apply map_ext. intros h. apply occurrences_ascii_row, Hc.
    - intros Hin'. apply list_elem_of_singleton in Hin'. destruct Hc; subst; discriminate. }
  split; apply Hcount; [left|right]; reflexivity.
Qed.

Lemma ascii_peaks_witness :
  Z.of_nat (occurrences "/"%char (String.list_ascii_of_string "  /\
 /\/\
/\/\/\")) = len [2; 1; 0] + Z.of_nat (size (_boxes_under_path [2; 1; 0]))
  ∧ Z.of_nat (occurrences "\"%char (String.list_ascii_of_string "  /\
 /\/\
/\/\/\")) = len [2; 1; 0] + Z.of_nat (size (_boxes_under_path [2; 1; 0])).
Proof. apply (ascii_peaks [2; 1; 0]). vm_compute. reflexivity. Defined.

Example doctest_ascii :
  ascii [2; 1; 0] = Passed (String.list_ascii_of_string "  /\
 /\/\
/\/\/\")
  ∧ ascii [0; 1; 0] = Passed (String.list_ascii_of_string "   /\
/\/\/\").
Proof. split; vm_compute; reflexivity. Qed.

(** ** [graphical]: the heights *)

Lemma py_for_ok {A S} (P : S → Prop) (body : S → A → result S) (g : S → A → S) l s :
  (∀ s x, P s → x ∈ l → body s x = Ok (g s x) ∧ P (g s x)) →
  P s → py_for body s l = Ok (foldl g s l) ∧ P (foldl g s l).
Proof.
  revert s. induction l as [|x l IH]; intros s Hbody Hs; [split; [reflexivity|exact Hs]|].
  cbn [py_for foldl]. destruct (Hbody s x Hs) as [-> Hs']; [left|].
  cbn [mbind result_bind]. apply IH; [|exact Hs'].
  intros s' y Hs'' Hy. apply Hbody; [exact Hs''|right; exact Hy].
Qed.

Lemma py_index_height (height : list Z) (v : Z) :
  0 ≤ v < len height → py_index height v = Ok (height_of height v).
Proof.
  intros Hv. apply py_index_ok; [lia|].
  apply list_lookup_lookup_total_lt. unfold len in Hv. lia.
Qed.

Lemma relax_ok (height : list Z) (lo hi : Z) :
  0 ≤ lo < len height → 0 ≤ hi < len height →
  relax height lo hi = Ok (raised height (lo, hi)).
Proof.
  intros Hlo Hhi. unfold relax, py_setitem.
  rewrite !py_index_height, py_slot_ok by assumption. reflexivity.
Qed.

Lemma len_raised (height : list Z) (e : Z * Z) : len (raised height e) = len height.
Proof. unfold raised, len. rewrite length_insert. reflexivity. Qed.

Lemma height_of_raised (height : list Z) (lo hi v : Z) :
  0 ≤ hi < len height → 0 ≤ v →
  height_of (raised height (lo, hi)) v
  = if decide (v = hi) then Z.max (height_of height hi) (height_of height lo + 1)
    else height_of height v.
Proof.
  intros Hhi Hv. unfold raised, height_of at 1. cbn [fst snd].
  destruct (decide (v = hi)) as [->|Hne].
  - apply list_lookup_total_insert_eq. unfold len in Hhi. lia.
  - apply list_lookup_total_insert_ne. lia.
Qed.

Lemma foldl_swapped (height : list Z) (descents : list (Z * Z)) :
  foldl (λ height b, raised height (b.2, b.1)) height descents
  = foldl raised height ((λ b, (b.2, b.1)) <$> descents).
Proof.
  revert height. induction descents as [|b l IH]; intros height; [reflexivity|].
  cbn [foldl fmap list_fmap]. apply IH.
Qed.

Section heights.
Variable N : Z.
Variable pos : Z → Z.
Variable es : list (Z * Z).
Hypothesis pos_range : ∀ v, 0 ≤ v < N → 0 ≤ pos v < N.
Hypothesis es_ok : ∀ lo hi, (lo, hi) ∈ es → 0 ≤ lo < N ∧ 0 ≤ hi < N ∧ pos lo < pos hi.

Lemma raised_below (k : Z) (height : list Z) (e : Z * Z) (v : Z) :
  len height = N → e ∈ es → settled pos es k height →
  0 ≤ v → pos v < k → height_of (raised height e) v = height_of height v.
Proof.
  intros Hlen He Hk Hv Hpos. destruct e as [lo hi].
  destruct (es_ok lo hi He) as (Hlo & Hhi & Hlt).
  rewrite height_of_raised by lia.
  destruct (decide (v = hi)) as [->|_]; [|reflexivity].
  pose proof (Hk lo hi He Hpos). lia.
Qed.

Lemma raised_mono (height : list Z) (e : Z * Z) (v : Z) :
  len height = N → e ∈ es → 0 ≤ v →
  height_of height v ≤ height_of (raised height e) v.
Proof.
  intros Hlen He Hv. destruct e as [lo hi].
  destruct (es_ok lo hi He) as (Hlo & Hhi & Hlt).
  rewrite height_of_raised by lia.
  destruct (decide (v = hi)) as [->|_]; lia.
Qed.

Lemma settled_raised (k : Z) (height : list Z) (e : Z * Z) :
  len height = N → e ∈ es → settled pos es k height →
  settled pos es k (raised height e).
Proof.
  intros Hlen He Hk lo hi Hin Hpos.
  destruct (es_ok lo hi Hin) as (Hlo & Hhi & Hlt).
  rewrite !(raised_below k) by (assumption || lia).
  apply Hk; assumption.
Qed.

Lemma round_progress (k : Z) (todo done : list (Z * Z)) (height : list Z) :
  len height = N →
  (∀ e, e ∈ todo → e ∈ es) → (∀ e, e ∈ done → e ∈ es) →
  settled pos es k height →
  (∀ lo hi, (lo, hi) ∈ done → pos hi = k → height_of height lo < height_of height hi) →
  len (foldl raised height todo) = N
  ∧ settled pos es k (foldl raised height todo)
  ∧ ∀ lo hi, (lo, hi) ∈ done ++ todo → pos hi = k →
      height_of (foldl raised height todo) lo < height_of (foldl raised height todo) hi.
Proof.
  revert done height. induction todo as [|e todo IH]; intros done height Hlen Htodo Hdone Hk Hd.
  - cbn [foldl]. rewrite app_nil_r. split; [exact Hlen|]. split; [exact Hk|exact Hd].
  - cbn [foldl]. assert (He : e ∈ es) by (apply Htodo; left).
    replace (done ++ e :: todo) with ((done ++ [e]) ++ todo)
      by (rewrite <- app_assoc; reflexivity).
    apply IH.
    + rewrite len_raised. exact Hlen.
    + intros e' He'. apply Htodo. right. exact He'.
    + intros e' He'. apply elem_of_app in He' as [He'|He']; [apply Hdone, He'|].
      apply list_elem_of_singleton in He' as ->. exact He.
    + apply settled_raised; assumption.
    + intros lo hi Hin Hpos.
      assert (Hes : (lo, hi) ∈ es).
      { apply elem_of_app in Hin as [Hin|Hin]; [apply Hdone, Hin|].
        apply list_elem_of_singleton in Hin as ->. exact He. }
      destruct (es_ok lo hi Hes) as (Hlo & Hhi & Hlt).
      rewrite (raised_below k height e lo) by (assumption || lia).
      apply elem_of_app in Hin as [Hin|Hin].
      * pose proof (Hd lo hi Hin Hpos). pose proof (raised_mono height e hi Hlen He). lia.
      * apply list_elem_of_singleton in Hin as <-.
        rewrite height_of_raised by lia. rewrite decide_True by reflexivity. lia.
Qed.

Lemma settled_round (k : Z) (height : list Z) :
  len height = N → settled pos es k height →
  len (foldl raised height es) = N ∧ settled pos es (k + 1) (foldl raised height es).
Proof.
  intros Hlen Hk.
  destruct (round_progress k es [] height Hlen) as (Hlen' & Hk' & Hdone);
    [tauto|intros e He; inversion He|exact Hk|intros lo hi Hin; inversion Hin|].
  split; [exact Hlen'|]. intros lo hi Hin Hpos.
  destruct (decide (pos hi = k)) as [E|Hne].
  - apply Hdone; assumption.
  - apply Hk'; [exact Hin|lia].
Qed.

Lemma settled_rounds {A} (rounds : list A) (k : Z) (height : list Z) :
  len height = N → settled pos es k height →
  len (foldl (λ height _, foldl raised height es) height rounds) = N
  ∧ settled pos es (k + len rounds)
      (foldl (λ height _, foldl raised height es) height rounds).
Proof.
  revert k height. induction rounds as [|r rounds IH]; intros k height Hlen Hk.
  - cbn [foldl]. rewrite len_nil, Z.add_0_r. split; assumption.
  - cbn [foldl]. rewrite len_cons.
    destruct (settled_round k height Hlen Hk) as [Hlen' Hk'].
    replace (k + (len rounds + 1)) with (k + 1 + len rounds) by lia.
    apply IH; assumption.
Qed.

Lemma bounded_raised (height : list Z) (e : Z * Z) :
  len height = N → e ∈ es →
  (∀ v, 0 ≤ v < N → 0 ≤ height_of height v ≤ pos v) →
  ∀ v, 0 ≤ v < N → 0 ≤ height_of (raised height e) v ≤ pos v.
Proof.
  intros Hlen He Hb v Hv. destruct e as [lo hi].
  destruct (es_ok lo hi He) as (Hlo & Hhi & Hlt).
  rewrite height_of_raised by lia.
  pose proof (Hb lo Hlo). pose proof (Hb hi Hhi). pose proof (Hb v Hv).
  destruct (decide (v = hi)) as [->|_]; lia.
Qed.

Lemma bounded_round (todo : list (Z * Z)) (height : list Z) :
  len height = N → (∀ e, e ∈ todo → e ∈ es) →
  (∀ v, 0 ≤ v < N → 0 ≤ height_of height v ≤ pos v) →
  ∀ v, 0 ≤ v < N → 0 ≤ height_of (foldl raised height todo) v ≤ pos v.
Proof.
  revert height. induction todo as [|e todo IH]; intros height Hlen Htodo Hb; [exact Hb|].
  cbn [foldl]. apply IH.
  - rewrite len_raised. exact Hlen.
  - intros e' He'. apply Htodo. right. exact He'.
  - apply bounded_raised; [exact Hlen|apply Htodo; left|exact Hb].
Qed.

Lemma bounded_rounds {A} (rounds : list A) (height : list Z) :
  len height = N →
  (∀ v, 0 ≤ v < N → 0 ≤ height_of height v ≤ pos v) →
  ∀ v, 0 ≤ v < N →
    0 ≤ height_of (foldl (λ height _, foldl raised height es) height rounds) v ≤ pos v.
Proof.
  revert height. induction rounds as [|r rounds IH]; intros height Hlen Hb; [exact Hb|].
  cbn [foldl]. apply IH.
  - destruct (round_progress 0 es [] height Hlen) as (Hlen' & _);
      [tauto|intros e He; inversion He| |intros lo hi Hin; inversion Hin|exact Hlen'].
    intros lo hi Hin Hpos. destruct (es_ok lo hi Hin) as (Hlo & _ & Hlt).
    pose proof (pos_range lo Hlo). lia.
  - apply bounded_round; [exact Hlen|tauto|exact Hb].
Qed.

Lemma round_ok (ascents descents : list (Z * Z)) (height : list Z) :
  es = relaxed_pairs ascents descents → len height = N →
  (height' ← py_for (λ height '(i, j), relax height i j) height ascents;
   py_for (λ height '(i, j), relax height j i) height' descents)
  = Ok (foldl raised height es).
Proof.
  intros Hes Hlen.
  destruct (py_for_ok (λ height, len height = N)
              (λ height '(i, j), relax height i j) raised ascents height) as [-> Hlen'];
    [|exact Hlen|].
  { intros h [i j] Hh Hin. rewrite len_raised. split; [|exact Hh].
    destruct (es_ok i j) as (Hi & Hj & _).
    { rewrite Hes. apply elem_of_app. left. exact Hin. }
    apply relax_ok; lia. }
  cbn [mbind result_bind].
  destruct (py_for_ok (λ height, len height = N)
              (λ height '(i, j), relax height j i) (λ height b, raised height (b.2, b.1))
              descents (foldl raised height ascents)) as [-> _];
    [|exact Hlen'|].
  { intros h [i j] Hh Hin. rewrite len_raised. split; [|exact Hh].
    destruct (es_ok j i) as (Hj & Hi & _).
    { rewrite Hes. apply elem_of_app. right.
      apply list_elem_of_fmap. exists (i, j). split; [reflexivity|exact Hin]. }
    cbn [fst snd]. apply relax_ok; lia. }
  rewrite foldl_swapped, Hes. unfold relaxed_pairs. rewrite foldl_app. reflexivity.
Qed.

Lemma rounds_ok {A} (ascents descents : list (Z * Z)) (rounds : list A) (height : list Z) :
  es = relaxed_pairs ascents descents → len height = N →
  py_for (λ height _,
            height ← py_for (λ height '(i, j), relax height i j) height ascents;
            py_for (λ height '(i, j), relax height j i) height descents)
         height rounds
  = Ok (foldl (λ height _, foldl raised height es) height rounds).
Proof.
  intros Hes Hlen.
  apply (py_for_ok (λ height, len height = N)); [|exact Hlen].
  intros h r Hh _. split; [apply round_ok; assumption|].
  destruct (settled_round 0 h Hh) as [Hlen' _]; [|exact Hlen'].
  intros lo hi Hin Hpos. destruct (es_ok lo hi Hin) as (Hlo & _ & Hlt).
  pose proof (pos_range lo Hlo). lia.
Qed.

End heights.

Lemma orientation_positions (n : Z) (ascents descents : gset (Z * Z)) :
  orientation_ok (n, ascents, descents) = true →
  ∃ pos : Z → Z,
    (∀ v, 0 ≤ v < Z.max 0 n → 0 ≤ pos v < Z.max 0 n)
    ∧ (∀ i j, (i, j) ∈ ascents → 0 ≤ i < j ∧ j < Z.max 0 n ∧ pos i < pos j)
    ∧ (∀ i j, (i, j) ∈ descents → 0 ≤ i < j ∧ j < Z.max 0 n ∧ pos j < pos i).
Proof.
  intros Hok. pose proof Hok as Hok'.
  apply orientation_ok_true in Hok' as (path & E & Hd & Hdisj & Hcover & _).
  pose proof (underlying_path_length _ _ _ _ E) as Hlen.
  assert (HN : len path = Z.max 0 n) by (unfold len; lia).
  assert (Hrange : range 0 n = range 0 (len path)).
  { destruct (decide (n ≤ 0)).
    - rewrite !range_empty by lia. reflexivity.
    - f_equal. lia. }
  unfold orientation_ok in Hok. rewrite E in Hok.
  apply andb_true_iff in Hok as [_ Hcyc]. rewrite Hrange in Hcyc.
  destruct (partition_from_ordering path ascents descents Hd Hdisj Hcover Hcyc)
    as (o & Ho & Eo).
  apply elem_of_permutations in Ho. unfold oriented in Eo.
  injection Eo as Easc Edesc. rewrite <- HN.
  assert (Hnd : NoDup o) by (rewrite Ho; apply NoDup_range).
  assert (Hlo : len o = len path).
  { rewrite (length_permutation_range _ _ Ho). pose proof (len_nonneg path). lia. }
  exists (rank o). split; [|split].
  - intros v Hv. assert (Hin : rank o v ∈ o) by (apply rank_elem; lia).
    revert Hin. generalize (rank o v). intros r Hin.
    rewrite Ho in Hin. apply elem_of_range in Hin. exact Hin.
  - intros i j Hin. rewrite Easc in Hin. apply elem_of_filter in Hin as [Hlt Hin].
    cbn [fst snd] in Hlt. pose proof (boxes_in_range _ _ _ Hd Hin). lia.
  - intros i j Hin. rewrite Edesc in Hin. apply elem_of_filter in Hin as [Hlt Hin].
    cbn [fst snd] in Hlt. pose proof (boxes_in_range _ _ _ Hd Hin) as Hij.
    split; [lia|]. split; [lia|].
    assert (rank o i ≠ rank o j); [|lia].
    intros Heq. apply rank_inj in Heq; [lia|exact Hnd|lia|lia].
Qed.

(** The heights [graphical] computes put every drawn edge on a slope, in
    whatever order the two frozensets are iterated: once the assertion has
    passed, the loop raises nothing, [height] has [n] entries, all in
    [range(n)], [height[i] < height[j]] for every ascent [(i, j)] and
    [height[i] > height[j]] for every descent [(i, j)]. *)
Theorem graphical_heights_slopes (n : Z) (ascents descents : gset (Z * Z))
    (ascents_order descents_order : list (Z * Z)) :
  returns (is_orientation (orientation_val (n, ascents, descents))) true →
  ascents_order ≡ₚ elements ascents →
  descents_order ≡ₚ elements descents →
  ∃ height, graphical_heights n ascents_order descents_order = Ok height
    ∧ len height = Z.max 0 n
    ∧ Forall (λ h, 0 ≤ h < n) height
    ∧ (∀ i j, (i, j) ∈ ascents →
         ∃ a b, py_index height i = Ok a ∧ py_index height j = Ok b ∧ a < b)
    ∧ (∀ i j, (i, j) ∈ descents →
         ∃ a b, py_index height i = Ok a ∧ py_index height j = Ok b ∧ b < a).
Proof.
  intros Hret Hla Hld.
  pose proof (returns_inj _ _ _ Hret (is_orientation_val (n, ascents, descents))) as Hok.
  symmetry in Hok. destruct (orientation_positions n ascents descents Hok)
    as (pos & Hpos & Hasc & Hdesc).
  set (N := Z.max 0 n) in *. set (es := relaxed_pairs ascents_order descents_order).
  assert (Hes : ∀ lo hi, (lo, hi) ∈ es → 0 ≤ lo < N ∧ 0 ≤ hi < N ∧ pos lo < pos hi).
  { intros lo hi Hin. apply elem_of_app in Hin as [Hin|Hin].
    - rewrite Hla in Hin. apply elem_of_elements, Hasc in Hin. lia.
    - apply list_elem_of_fmap in Hin as ([i j] & [= -> ->] & Hin).
      rewrite Hld in Hin. apply elem_of_elements, Hdesc in Hin. lia. }
  set (start := replicate (Z.to_nat n) 0).
  assert (Hstart : len start = N) by (unfold start, len; rewrite length_replicate; lia).
  assert (Hzero : settled pos es 0 start).
  { intros lo hi Hin Hlt. destruct (Hes lo hi Hin) as (Hlo & _ & ?).
    pose proof (Hpos lo Hlo). lia. }
  assert (Hrounds : len (range 0 n) = N) by (rewrite length_range; unfold N; lia).
  destruct (settled_rounds N pos es Hes (range 0 n) 0 start Hstart Hzero)
    as [Hlen Hall].
  rewrite Hrounds, Z.add_0_l in Hall.
  pose proof (bounded_rounds N pos es Hpos Hes (range 0 n) start Hstart) as Hb.
  pose proof (rounds_ok N pos es Hpos Hes ascents_order descents_order (range 0 n)
                start eq_refl Hstart) as Hrun.
  fold (graphical_heights n ascents_order descents_order) in Hrun.
  set (height := foldl _ start (range 0 n)) in *. clearbody height.
  exists height. split; [exact Hrun|].
  split; [exact Hlen|]. split; [|split].
  - apply Forall_lookup. intros r h Hr.
    assert (Hlt : (r < length height)%nat) by (apply lookup_lt_is_Some; eexists; exact Hr).
    assert (HrN : 0 ≤ Z.of_nat r < N) by (unfold len in Hlen; lia).
    assert (Hinit : ∀ v, 0 ≤ v < N → 0 ≤ height_of start v ≤ pos v).
    { intros v Hv. unfold height_of, start.
      rewrite lookup_total_replicate_2 by (unfold N in Hv; lia).
      pose proof (Hpos v Hv). lia. }
    specialize (Hb Hinit).
    assert (Hh : h = height_of height (Z.of_nat r)).
    { unfold height_of. rewrite Nat2Z.id. symmetry. apply list_lookup_total_correct, Hr. }
    pose proof (Hb (Z.of_nat r) HrN). pose proof (Hpos _ HrN). unfold N in *. lia.
  - intros i j Hin. destruct (Hasc i j Hin) as (Hi & Hj & _).
    exists (height_of height i), (height_of height j).
    rewrite !py_index_height by lia. split; [reflexivity|]. split; [reflexivity|].
    apply Hall.
    + apply elem_of_app. left. rewrite Hla. apply elem_of_elements, Hin.
    + apply Hpos. lia.
  - intros i j Hin. destruct (Hdesc i j Hin) as (Hi & Hj & _).
    exists (height_of height i), (height_of height j).
    rewrite !py_index_height by lia. split; [reflexivity|]. split; [reflexivity|].
    apply Hall.
    + apply elem_of_app. right. apply list_elem_of_fmap. exists (i, j).
      split; [reflexivity|]. rewrite Hld. apply elem_of_elements, Hin.
    + apply Hpos. lia.
Qed.

Lemma graphical_heights_slopes_witness :
  ∃ height, graphical_heights 3 [(0, 1)] [(1, 2)] = Ok height
    ∧ len height = Z.max 0 3
    ∧ Forall (λ h, 0 ≤ h < 3) height
    ∧ (∀ i j, (i, j) ∈ ({[ (0, 1) ]} : gset (Z * Z)) →
         ∃ a b, py_index height i = Ok a ∧ py_index height j = Ok b ∧ a < b)
    ∧ (∀ i j, (i, j) ∈ ({[ (1, 2) ]} : gset (Z * Z)) →
         ∃ a b, py_index height i = Ok a ∧ py_index height j = Ok b ∧ b < a).
Proof.
  apply (graphical_heights_slopes 3 {[ (0, 1) ]} {[ (1, 2) ]}).
  - replace true with (orientation_ok (3, {[ (0, 1) ]}, {[ (1, 2) ]}))
      by (vm_compute; reflexivity).
    apply (is_orientation_val (3, {[ (0, 1) ]}, {[ (1, 2) ]})).
  - rewrite elements_singleton. reflexivity.
  - rewrite elements_singleton. reflexivity.
Defined.

Example graphical_heights_example :
  graphical_heights 6 [(1, 4); (2, 3); (2, 4); (3, 4); (3, 5); (4, 5)]
                      [(0, 1); (1, 2); (1, 3)]
  = Ok [3; 2; 0; 1; 3; 4].
Proof. vm_compute. reflexivity. Qed.

(** ** [is_primitive] on valid paths *)

(** On a valid Dyck path, the domain its docstring names, [is_primitive]
    raises nothing, and it returns true exactly when no entry but the last
    is 0: the path touches the diagonal only at its end. *)
Theorem is_primitive_valid (path : list Z) :
  is_dyck_path (tuple_of path) = Ok true →
  ∃ b, is_primitive path = Ok b
    ∧ (b = true ↔ ∀ (i : nat), path !! i = Some 0 → S i = length path).
Proof.
  rewrite is_dyck_path_tuple, Ok_eq. intros Hd.
  destruct path as [|x l].
  { exists true. split; [reflexivity|]. split; [|reflexivity].
    intros _ i Hi. rewrite lookup_nil in Hi. discriminate. }
  assert (Hin : 0 ∈ x :: l).
  { apply dyck_spec in Hd as (_ & _ & [?|Hlast]); [discriminate|].
    apply last_Some in Hlast as (l' & ->). apply elem_of_app. right. left. }
  apply list_elem_of_split_l in Hin as (pre & rest & -> & Hpre).
  exists (bool_decide (rest = [])). split; [apply is_primitive_first, Hpre|].
  rewrite bool_decide_eq_true. split.
  - intros -> i Hi. rewrite length_app. cbn [length].
    destruct (decide (i < length pre)%nat) as [Hlt|Hge].
    + rewrite lookup_app_l in Hi by exact Hlt.
      exfalso. apply Hpre. eapply list_elem_of_lookup_2. exact Hi.
    + apply lookup_lt_Some in Hi. rewrite length_app in Hi. cbn [length] in Hi. lia.
  - intros Hlast. specialize (Hlast (length pre)).
    rewrite list_lookup_middle in Hlast by reflexivity. specialize (Hlast eq_refl).
    rewrite length_app in Hlast. cbn [length] in Hlast.
    destruct rest; [reflexivity|]. cbn [length] in Hlast. lia.
Qed.

Lemma is_primitive_valid_witness :
  ∃ b, is_primitive [2; 1; 0] = Ok b
    ∧ (b = true ↔ ∀ (i : nat), [2; 1; 0] !! i = Some 0 → S i = length [2; 1; 0]).
Proof. apply (is_primitive_valid [2; 1; 0]). reflexivity. Defined.
